(** * Tiled foreground-detection scan of a whole-slide image

    A shallow embedding of the thresholding cells of
    [updates/1-LoadingImages.ipynb]: the variance classifier [threshold],
    the worker [process_patch], the aggregator [compile_results], the
    cell that builds the coordinate grid and its chunks
    ([start_loc_data], [chunk_size], [start_loc_list]) and the cell that
    builds the binary [mask].

    Python integers are [Z]; Python lists are [list]; a Python call that
    can raise returns [option], with [None] standing for the exception.
    A finite float is the rational number ([Q]) it denotes. numpy's
    [var], whose float64 arithmetic is not part of the notebook, is a
    parameter of the classifier and of everything that calls it. *)

From Stdlib Require Import ZArith QArith Qround Lia.
From stdpp Require Import base option list sets gmap strings.

Local Open Scope Z_scope.

(** ** Python primitives used by the notebook *)

Module Py.

(** [a // b] on Python ints: floor division, [ZeroDivisionError] on a
    zero divisor. Rocq's [Z.div] rounds the same way for both signs of
    the divisor. *)
Definition floordiv (a b : Z) : option Z :=
  if decide (b = 0) then None else Some (a / b).

(** [len(range(start, stop, step))] for a non-zero [step]. *)
Definition range_len (start stop step : Z) : Z :=
  if decide (0 < step)
  then (if decide (start < stop) then (stop - start - 1) / step + 1 else 0)
  else (if decide (stop < start) then (start - stop - 1) / (- step) + 1 else 0).

(** [list(range(start, stop, step))]; [ValueError] when [step] is zero. *)
Definition range (start stop step : Z) : option (list Z) :=
  if decide (step = 0) then None
  else Some ((λ k, start + k * step) <$> seqZ 0 (range_len start stop step)).

(** How a slice bound [k] is clipped against a sequence of length [len]. *)
Definition slice_index (len k : Z) : Z :=
  if decide (k < 0) then Z.max 0 (k + len) else Z.min k len.

(** [l[i:j]]: never raises, bounds are clipped. *)
Definition slice {A : Type} (l : list A) (i j : Z) : list A :=
  let n := Z.of_nat (length l) in
  let lo := slice_index n i in
  let hi := slice_index n j in
  take (Z.to_nat (hi - lo)) (drop (Z.to_nat lo) l).

(** [len(l)] as a Python int. *)
Definition len {A : Type} (l : list A) : Z := Z.of_nat (length l).

(** [int(x)] on a finite float: the fraction is dropped, which rounds
    toward zero. *)
Definition int (x : Q) : Z :=
  if Qle_bool 0 x then Qfloor x else Qceiling x.

End Py.

(** ** Data model *)

(** A tile coordinate [(x, y)] in level-0 pixel space. *)
Definition coord : Type := Z * Z.

(** A decoded region: rows of pixels, each pixel a list of channel
    values, as [np.array(wsi.read_region(...))] has it. *)
Definition tile : Type := list (list (list Z)).

(** ** The scheduling cell *)

Module Scheduler.

(** [patch_size = 164] *)
Definition patch_size : Z := 164.

(** [num_chunks = 32] *)
Definition num_chunks : Z := 32.

(** [[(sx, sy) for sy in range(0, h, patch_size)
               for sx in range(0, w, patch_size)]] *)
Definition start_loc_data (w h patch_size : Z) : option (list coord) :=
  ys ← Py.range 0 h patch_size;
  xs ← Py.range 0 w patch_size;
  Some (sy ← ys; sx ← xs; [(sx, sy)]).

(** [chunk_size = len(start_loc_data) // num_chunks] *)
Definition chunk_size {A : Type} (start_loc_data : list A) (num_chunks : Z) : option Z :=
  Py.floordiv (Py.len start_loc_data) num_chunks.

(** [[start_loc_data[i:i+chunk_size]
      for i in range(0, len(start_loc_data), chunk_size)]] *)
Definition start_loc_list {A : Type} (start_loc_data : list A) (num_chunks : Z)
  : option (list (list A)) :=
  cs ← chunk_size start_loc_data num_chunks;
  starts ← Py.range 0 (Py.len start_loc_data) cs;
  Some (fmap (M:=list) (λ i, Py.slice start_loc_data i (i + cs)) starts).

End Scheduler.

(** ** The foreground classifier *)

Module Classifier.

(** [arr.flatten()]: every channel value of every pixel, row-major. *)
Definition flatten (arr : tile) : list Z := concat (concat arr).

(** The default of the keyword argument [threshold_value=80]. *)
Definition threshold_value_default : Q := 80%Q.

(** [a > b] on floats, where any comparison with [nan] is [False]. *)
Definition gt (a : option Q) (b : Q) : bool :=
  match a with
  | Some v => negb (Qle_bool v b)
  | None => false
  end.

Section Threshold.

(** [ndarray.var] of numpy on a flat integer array: the float64 number
    the library returns, as the rational it denotes, or [None] for
    [nan]. The library rounds after every operation and sums in an order
    of its own, so this number need not be the variance of exact
    arithmetic; nothing is assumed about it. *)
Variable var : list Z → option Q.

(** [def threshold(arr, threshold_value=80)] *)
Definition threshold (arr : tile) (threshold_value : Q) : bool :=
  if gt (var (flatten arr)) threshold_value then true else false.

End Threshold.

End Classifier.

(** ** The worker *)

(** What a worker does that the outside can observe: the region reads it
    issues and the classifier calls it makes. *)
Inductive event : Type :=
  | ReadRegion (location : coord) (size : Z * Z) (level : Z)
  | Classify (region : tile) (threshold_value : Q).

(** A worker computation: it may raise, and it extends the log of the
    events issued so far. *)
Definition Worker (A : Type) : Type := list event → option (A * list event).

Definition wret {A : Type} (a : A) : Worker A := λ log, Some (a, log).

Definition wbind {A B : Type} (m : Worker A) (k : A → Worker B) : Worker B :=
  λ log, match m log with
         | Some (a, log') => k a log'
         | None => None
         end.

Definition wlift {A : Type} (o : option A) : Worker A :=
  λ log, match o with Some a => Some (a, log) | None => None end.

Definition wemit (e : event) : Worker unit := λ log, Some (tt, log ++ [e]).

Notation "x <~ m ;; k" := (wbind m (λ x, k))
  (at level 100, m at next level, right associativity,
   format "x  <~  m  ;;  '/' k").

(** [reduction = int(wsi.metadata["cucim"]["resolutions"]["level_downsamples"][1])]:
    the downsample factor of level 1, a float, cut to an int; an
    [IndexError] when the pyramid has one level only. *)
Definition reduction_of (level_downsamples : list Q) : option Z :=
  Py.int <$> level_downsamples !! 1%nat.

Section Worker.

(** numpy's [var], as in [Classifier]. *)
Variable var : list Z → option Q.

(** The slide behind [CuImage(input_file)]: what [read_region] returns
    for a location (level-0 coordinates), a size (coordinates of the
    requested level) and a level; [None] when the decoder raises. *)
Variable read_region : coord → Z * Z → Z → option tile.

(** The notebook's globals [patch_size] and [reduction], the latter
    being the value [reduction_of] gives for the slide. *)
Variables patch_size reduction : Z.

Definition wsi_read_region (location : coord) (size : Z * Z) (level : Z)
  : Worker tile :=
  _ <~ wemit (ReadRegion location size level) ;;
  wlift (read_region location size level).

Definition call_threshold (region : tile) : Worker bool :=
  _ <~ wemit (Classify region Classifier.threshold_value_default) ;;
  wret (Classifier.threshold var region Classifier.threshold_value_default).

(** The body of [for start_loc in start_loc_list]. *)
Definition process_step (res : list coord) (start_loc : coord)
  : Worker (list coord) :=
  sw <~ wlift (Py.floordiv patch_size reduction) ;;
  sh <~ wlift (Py.floordiv patch_size reduction) ;;
  region <~ wsi_read_region start_loc (sw, sh) 1 ;;
  fg <~ call_threshold region ;;
  wret (if fg then res ++ [(start_loc.1, start_loc.2)] else res).

Fixpoint process_loop (start_loc_list : list coord) (res : list coord)
  : Worker (list coord) :=
  match start_loc_list with
  | [] => wret res
  | start_loc :: rest =>
      res' <~ process_step res start_loc ;;
      process_loop rest res'
  end.

(** [def process_patch(start_loc_list)], with its event log. *)
Definition process_patch_logged (start_loc_list : list coord)
  : Worker (list coord) :=
  process_loop start_loc_list [].

(** What [process_patch] returns (or that it raised). *)
Definition process_patch (start_loc_list : list coord) : option (list coord) :=
  fst <$> process_patch_logged start_loc_list [].

End Worker.

(** ** The aggregator *)

Module Aggregator.

(** A finished task: the list its worker returned, or [None] when the
    worker raised. *)
Definition future : Type := option (list coord).

(** [future.result()] returns the value or re-raises. *)
Definition result (f : future) : option (list coord) := f.

(** [as_completed(futures)] yields the futures in the order in which
    they finish. That order is not fixed by the program; it is given
    here by [picks]: each pick selects (modulo the number of futures
    still running) the one that finishes next, and when the picks run
    out the rest finish in submission order. *)
Fixpoint as_completed {A : Type} (futures : list A) (picks : list nat)
  : list A :=
  match picks with
  | [] => futures
  | k :: picks' =>
      match futures with
      | [] => []
      | f0 :: _ =>
          let i := (k `mod` length futures)%nat in
          nth i futures f0 :: as_completed (delete i futures) picks'
      end
  end.

(** [for patch in res1: patches.append(patch)] *)
Definition append_all (patches res1 : list coord) : list coord :=
  foldl (λ acc patch, acc ++ [patch]) patches res1.

(** The truth value of a list: non-empty. *)
Definition truthy {A : Type} (l : list A) : bool :=
  match l with [] => false | _ => true end.

(** The loop [for future in as_completed(futures)] over the futures in
    completion order, [patches] being the list built so far. *)
Fixpoint compile_loop (completed : list future) (patches : list coord)
  : option (list coord) :=
  match completed with
  | [] => Some patches
  | f :: rest =>
      res1 ← result f;
      compile_loop rest (if truthy res1 then append_all patches res1 else patches)
  end.

(** [def compile_results(futures)] *)
Definition compile_results (futures : list future) (picks : list nat)
  : option (list coord) :=
  compile_loop (as_completed futures picks) [].

End Aggregator.

(** ** The whole scan *)

Section Scan.

Variable var : list Z → option Q.
Variable read_region : coord → Z * Z → Z → option tile.
Variables patch_size reduction : Z.

(** [client.map(process_patch, start_loc_list)]: one task per chunk. *)
Definition client_map (start_loc_list : list (list coord))
  : list Aggregator.future :=
  process_patch var read_region patch_size reduction <$> start_loc_list.

(** The scheduling cell from [w], [h] (the level-0 dimensions) to
    [patches], for one completion order of the tasks. *)
Definition scan (w h num_chunks : Z) (picks : list nat) : option (list coord) :=
  start_loc_data ← Scheduler.start_loc_data w h patch_size;
  start_loc_list ← Scheduler.start_loc_list start_loc_data num_chunks;
  Aggregator.compile_results (client_map start_loc_list) picks.

End Scan.

(** ** The mask cell *)

Module Mask.

(** A two-dimensional integer array: its shape and its rows. *)
Record ndarray : Type := { shape : Z * Z; rows : list (list Z) }.

(** [np.zeros((r, c), dtype=int)]; [ValueError] on a negative
    dimension. *)
Definition zeros (r c : Z) : option ndarray :=
  if decide (0 ≤ r ∧ 0 ≤ c)
  then Some {| shape := (r, c);
               rows := replicate (Z.to_nat r) (replicate (Z.to_nat c) 0) |}
  else None.

(** How numpy resolves an index [k] along an axis of length [n]:
    negative indices count from the end, anything outside
    [-n .. n-1] is an [IndexError]. *)
Definition index (n k : Z) : option nat :=
  if decide (0 ≤ k < n) then Some (Z.to_nat k)
  else if decide (- n ≤ k < 0) then Some (Z.to_nat (k + n))
  else None.

(** [mask[i, j] = v] *)
Definition setitem (mask : ndarray) (i j v : Z) : option ndarray :=
  r ← index (shape mask).1 i;
  c ← index (shape mask).2 j;
  Some {| shape := shape mask; rows := alter (λ row, <[c := v]> row) r (rows mask) |}.

(** [mask[i, j]] for an index inside the array. *)
Definition getitem (mask : ndarray) (i j : nat) : option Z :=
  row ← rows mask !! i; row !! j.

(** The body of [for patch in patches]. *)
Definition mask_step (w h patch_size reduction : Z) (mask : ndarray)
    (patch : coord) : option ndarray :=
  j ← Py.floordiv patch.1 (patch_size * reduction);
  i ← Py.floordiv patch.2 (patch_size * reduction);
  hp ← Py.floordiv h patch_size;
  if decide (i < hp) then
    wp ← Py.floordiv w patch_size;
    if decide (j < wp) then setitem mask i j 1 else Some mask
  else Some mask.

Fixpoint mask_loop (w h patch_size reduction : Z) (patches : list coord)
    (mask : ndarray) : option ndarray :=
  match patches with
  | [] => Some mask
  | patch :: rest =>
      mask' ← mask_step w h patch_size reduction mask patch;
      mask_loop w h patch_size reduction rest mask'
  end.

(** The mask cell: [w], [h] are the level-1 dimensions. *)
Definition build (w h patch_size reduction : Z) (patches : list coord)
  : option ndarray :=
  hp ← Py.floordiv h patch_size;
  wp ← Py.floordiv w patch_size;
  mask ← zeros hp wp;
  mask_loop w h patch_size reduction patches mask.

End Mask.

(** ** Vocabulary of the statements

    These definitions are not part of the notebook; the properties below
    are stated with them. *)

(** The comprehension over two axes: [sy] outer, [sx] inner. *)
Definition grid_of (xs ys : list Z) : list coord :=
  sy ← ys; sx ← xs; [(sx, sy)].

(** The [m] first slices of width [c] of a list. *)
Definition slices {A : Type} (c : nat) (l : list A) (m : nat) : list (list A) :=
  (λ k, take c (drop (k * c) l)) <$> seq 0 m.

(** The number of chunks the chunking comprehension produces for a
    chunk size [cs]. *)
Definition chunk_count {A : Type} (l : list A) (cs : Z) : nat :=
  Z.to_nat (Py.range_len 0 (Py.len l) cs).

(** The results of the futures that did not raise. *)
Definition results (futures : list Aggregator.future) : list (list coord) :=
  omap Aggregator.result futures.

(** The accepted-tile set: the coordinates of a list, as a finite set. *)
Definition tile_set (patches : list coord) : gset coord := list_to_set patches.

(** The grid cell [(i, j)] an accepted coordinate [(x, y)] is projected
    to by the mask cell. *)
Definition target_cell (patch_size reduction : Z) (patch : coord) : Z * Z :=
  (patch.2 / (patch_size * reduction), patch.1 / (patch_size * reduction)).

(** A mask that has the shape it claims to have. *)
Definition mask_wf (mask : Mask.ndarray) (r c : Z) : Prop :=
  Mask.shape mask = (r, c) ∧ 0 ≤ r ∧ 0 ≤ c ∧
  length (Mask.rows mask) = Z.to_nat r ∧
  Forall (λ row, length row = Z.to_nat c) (Mask.rows mask).

(** The cell of the mask the formula with the level's own downsample
    factor (a float) points to: [//] on floats is the floor of the
    quotient. *)
Definition float_cell (patch_size : Z) (downsample : Q) (patch : coord)
  : Z * Z :=
  (Qfloor (inject_Z patch.2 / (inject_Z patch_size * downsample)),
   Qfloor (inject_Z patch.1 / (inject_Z patch_size * downsample))).

(** A variance routine for the examples: the mean of the squared
    deviations from the mean, in exact arithmetic. *)
Definition qsum (xs : list Q) : Q := foldr Qplus 0%Q xs.
Definition exact_var (xs : list Z) : option Q :=
  match xs with
  | [] => None
  | _ =>
      let arrmean := (qsum (inject_Z <$> xs) / inject_Z (Py.len xs))%Q in
      let sq := (λ x, (inject_Z x - arrmean) * (inject_Z x - arrmean))%Q in
      Some (qsum (sq <$> xs) / inject_Z (Py.len xs))%Q
  end.

(** A slide for the examples: blank (white) left of [x = 328], textured
    elsewhere; every read succeeds. *)
Definition demo_slide : coord → Z * Z → Z → option tile :=
  λ location size level,
    if decide (location.1 < 328)
    then Some [[[255; 255; 255]; [255; 255; 255]]]
    else Some [[[0; 200; 30]; [250; 10; 90]]].

(** The downsample factors of a three-level pyramid for the examples:
    level 1 is a little more than four times smaller than level 0, as
    when the width of level 0 is not a multiple of four. *)
Definition demo_downsamples : list Q := [1; 32769 # 8192; 16]%Q.

(** A slide whose file is damaged right of [x = 328]: reads there make
    the decoder raise. *)
Definition torn_slide : coord → Z * Z → Z → option tile :=
  λ location size level,
    if decide (location.1 < 328)
    then Some [[[255; 255; 255]; [0; 0; 0]]]
    else None.

Module Obs.
Section Obs.

Variable var : list Z → option Q.
Variable read_region : coord → Z * Z → Z → option tile.
Variables patch_size reduction : Z.

(** The side of the square a worker asks for, in level-1 pixels. *)
Definition tile_side : Z := patch_size / reduction.

(** The region a worker gets at a location. *)
Definition region_at (location : coord) : option tile :=
  read_region location (tile_side, tile_side) 1.

(** Whether the region at a location classifies as foreground. *)
Definition foreground (location : coord) : bool :=
  match region_at location with
  | Some region =>
      Classifier.threshold var region Classifier.threshold_value_default
  | None => false
  end.

(** The two events one loop iteration issues. *)
Definition events_at (location : coord) (region : tile) : list event :=
  [ReadRegion location (tile_side, tile_side) 1;
   Classify region Classifier.threshold_value_default].

(** The events of a whole sub-list, given the regions read. *)
Definition events_of (locs : list coord) (regions : list tile) : list event :=
  concat (zip_with events_at locs regions).

End Obs.
End Obs.

(** ** Other cells of the notebooks *)

(** Python list operations the other cells use. *)
Module PyList.

(** [[v] * k]: a non-positive [k] gives the empty list. *)
Definition repeat {A : Type} (v : A) (k : Z) : list A :=
  replicate (Z.to_nat k) v.

(** How an index [k] into a sequence of length [n] is resolved:
    negative indices count from the end, anything outside
    [-n .. n-1] is an [IndexError]. *)
Definition index (n k : Z) : option nat :=
  if decide (0 ≤ k < n) then Some (Z.to_nat k)
  else if decide (- n ≤ k < 0) then Some (Z.to_nat (k + n))
  else None.

(** [l[k]] *)
Definition getitem {A : Type} (l : list A) (k : Z) : option A :=
  i ← index (Py.len l) k; l !! i.

(** [l[k] = v] *)
Definition setitem {A : Type} (l : list A) (k : Z) (v : A) : option (list A) :=
  i ← index (Py.len l) k; Some (<[i := v]> l).

End PyList.

(** *** The timing cells of [1-LoadingImages.ipynb] *)

Module Timing.
Section Timing.

(** The type of the entries of [times] (the int [0], then the measured
    durations), and what [time_loading_at_resolution] returned for the
    one call made at each level. *)
Variable T : Type.
Variable zero : T.
Variable time_loading_at_resolution : Z → T.



End Timing.
End Timing.

(** *** The threaded loader of [1-LoadingImages.ipynb] *)

Module Loader.

(** The arguments of one [slide.read_region(location, level, size)]. *)
Record request : Type :=
  { location : coord; level : Z; region_size : Z * Z }.

(** [loaderThread.run], up to the region it asks for:
    [x = (width // num_threads) * (1-self.threadID)] and
    [slide.read_region((x,0), level, (width//num_threads, height))]. *)
Definition run (width height num_threads lvl threadID : Z) : option request :=
  q ← Py.floordiv width num_threads;
  let x := q * (1 - threadID) in
  q' ← Py.floordiv width num_threads;
  Some {| location := (x, 0); level := lvl; region_size := (q', height) |}.

(** [for i in range(num_threads): loaderThread(i).start()]: what each
    started thread asks for, in thread order ([None] for a thread that
    raised). *)
Definition requests (width height num_threads lvl : Z)
  : option (list (option request)) :=
  ids ← Py.range 0 num_threads 1;
  Some (fmap (M:=list) (run width height num_threads lvl) ids).

End Loader.

(** *** The toy task graph of [1-LoadingImages.ipynb] *)

Module Toy.

(** An entry of the list [a]: a plain Python int, or the [Delayed]
    object a call of [add] returns, which holds the two arguments of
    the call. *)
Inductive delayed : Type :=
  | Value (v : Z)
  | Add (x y : delayed).

(** What an argument is worth when the graph runs: an int is itself, a
    [Delayed] argument is the sum [add] returns once its own arguments
    are there. *)
Fixpoint value (d : delayed) : Z :=
  match d with
  | Value v => v
  | Add x y => value x + value y
  end.

(** [result.compute()]: a [Delayed] object runs its graph; a plain int
    has no such method ([AttributeError]). *)
Definition compute (d : delayed) : option Z :=
  match d with
  | Value _ => None
  | Add x y => Some (value x + value y)
  end.

(** How a run of the cell ends: with a value, with an [IndexError], or
    (in the model only) with the fuel of the [while] loop used up. *)
Inductive outcome (A : Type) : Type :=
  | Done (a : A)
  | IndexError
  | OutOfFuel.
Arguments Done {A} a.
Arguments IndexError {A}.
Arguments OutOfFuel {A}.

(** [add(a[i], a[i+1])] *)
Definition add_pair (a : list delayed) (i : Z) : option delayed :=
  x ← PyList.getitem a i;
  y ← PyList.getitem a (i + 1);
  Some (Add x y).

(** [for i in range(0,len(a),2): b.append(add(a[i],a[i+1]))], from an
    empty [b]. *)
Definition pair_up (a : list delayed) : option (list delayed) :=
  idx ← Py.range 0 (Py.len a) 2;
  mapM (add_pair a) idx.

(** [while len(a)>1: ...; a=b; b=[]] *)
Fixpoint reduce_loop (fuel : nat) (a : list delayed) : outcome (list delayed) :=
  if decide (1 < Py.len a) then
    match fuel with
    | O => OutOfFuel
    | S fuel' =>
        match pair_up a with
        | Some b => reduce_loop fuel' b
        | None => IndexError
        end
    end
  else Done a.

(** The cell from a list [a] of ints to [result = a[0]]. *)
Definition result (fuel : nat) (a : list Z) : outcome delayed :=
  match reduce_loop fuel (Value <$> a) with
  | Done a' =>
      match PyList.getitem a' 0 with
      | Some r => Done r
      | None => IndexError
      end
  | IndexError => IndexError
  | OutOfFuel => OutOfFuel
  end.

(** The longest chain of pending additions in a graph. *)
Fixpoint depth (d : delayed) : nat :=
  match d with
  | Value _ => 0
  | Add x y => S (depth x `max` depth y)
  end.

(** The number of pending additions in a graph. *)
Fixpoint additions (d : delayed) : nat :=
  match d with
  | Value _ => 0
  | Add x y => S (additions x + additions y)
  end.

End Toy.

(** *** The patch list of [2-Inferencex.ipynb] *)

Module Patches.

(** One dictionary of [data_list]. *)
Record entry : Type :=
  { image : string; location : list Z; size : list Z }.

(** [[for i in range(x, x+2000, 164): for j in range(y, y+2000, 164):
      data_list.append({...})]] *)
Definition data_list (x y : Z) : option (list entry) :=
  rows ← Py.range x (x + 2000) 164;
  cols ← Py.range y (y + 2000) 164;
  Some (i ← rows; j ← cols;
        [{| image := "data/tcga1.svs"; location := [i; j]; size := [256; 256] |}]).

(** [img[46:-46,46:-46]] on an array of rows. *)
Definition crop {A : Type} (img : list (list A)) : list (list A) :=
  (λ row, Py.slice row 46 (-46)) <$> Py.slice img 46 (-46).

End Patches.

(** *** Vocabulary for the other cells *)

(** The pixel columns a request of the threaded loader covers. *)
Definition covers (r : Loader.request) (px : Z) : Prop :=
  (Loader.location r).1 ≤ px < (Loader.location r).1 + (Loader.region_size r).1.

(** The sum of a list of ints. *)
Definition zsum (xs : list Z) : Z := foldr Z.add 0 xs.


(** The pixel columns (or rows) a patch of [data_list] that starts at
    [i] covers. *)
Definition patch_covers (i px : Z) : Prop := i ≤ px < i + 256.

(** Adding neighbours pairwise, by recursion on the list. *)
Fixpoint pairs (a : list Toy.delayed) : option (list Toy.delayed) :=
  match a with
  | [] => Some []
  | [_] => None
  | x :: y :: rest => (λ b, Toy.Add x y :: b) <$> pairs rest
  end.

(** The value, and the number of pending additions, of a list of
    graphs taken together. *)
Definition total (a : list Toy.delayed) : Z := zsum (Toy.value <$> a).
Definition pending (a : list Toy.delayed) : nat :=
  foldr Nat.add 0%nat (Toy.additions <$> a).

(** * Properties *)

(** ** Python primitives *)

Section PyFacts.

Lemma floordiv_Some a b : b ≠ 0 → Py.floordiv a b = Some (a / b).
Proof. intros Hb. unfold Py.floordiv. by destruct (decide (b = 0)). Qed.

Lemma floordiv_None a : Py.floordiv a 0 = None.
Proof. reflexivity. Qed.

Lemma floordiv_inv a b q : Py.floordiv a b = Some q → b ≠ 0 ∧ q = a / b.
Proof.
  unfold Py.floordiv. destruct (decide (b = 0)); [done|].
  intros [= <-]. done.
Qed.

Lemma range_zero_step start stop : Py.range start stop 0 = None.
Proof. reflexivity. Qed.

Lemma range_inv start stop step l :
  Py.range start stop step = Some l →
  step ≠ 0 ∧
  l = (λ k, start + k * step) <$> seqZ 0 (Py.range_len start stop step).
Proof.
  unfold Py.range. destruct (decide (step = 0)); [done|].
  intros [= <-]. done.
Qed.

(** For a positive step, [k] indexes an element of the range exactly
    when the element lies below [stop]. *)
Lemma range_len_pos_bound stop step k :
  0 < step → 0 ≤ k →
  k < Py.range_len 0 stop step ↔ k * step < stop.
Proof.
  intros Hs Hk. unfold Py.range_len.
  destruct (decide (0 < step)); [|lia].
  destruct (decide (0 < stop)) as [Hstop|Hstop].
  - rewrite Z.sub_0_r.
    pose proof (Z.div_mod (stop - 1) step ltac:(lia)) as Hdm.
    pose proof (Z.mod_pos_bound (stop - 1) step Hs) as Hmb.
    split; intros H; nia.
  - split; intros H; nia.
Qed.

Lemma range_len_nonneg start stop step : 0 ≤ Py.range_len start stop step.
Proof.
  unfold Py.range_len.
  repeat case_decide; try lia.
  - apply Z.add_nonneg_nonneg; [|lia]. apply Z.div_pos; lia.
  - destruct (decide (step = 0)) as [->|]; [by rewrite Z.div_0_r|].
    apply Z.add_nonneg_nonneg; [|lia]. apply Z.div_pos; lia.
Qed.

(** Membership in [range(0, stop, step)] for a positive step. *)
Lemma elem_of_range_pos stop step l x :
  0 < step → Py.range 0 stop step = Some l →
  x ∈ l ↔ 0 ≤ x < stop ∧ (step | x).
Proof.
  intros Hs [_ ->]%range_inv.
  rewrite list_elem_of_fmap. split.
  - intros (k & -> & [Hk0 Hk]%elem_of_seqZ).
    rewrite Z.add_0_l in Hk. apply range_len_pos_bound in Hk; [|done..].
    split; [nia|]. exists k. lia.
  - intros [[Hx0 Hx] [k ->]]. exists k. split; [lia|].
    apply elem_of_seqZ. assert (0 ≤ k) by nia.
    split; [lia|]. rewrite Z.add_0_l. by apply range_len_pos_bound.
Qed.

(** A range with a negative step and a non-negative stop is empty. *)
Lemma range_neg_step stop step :
  step < 0 → 0 ≤ stop → Py.range 0 stop step = Some [].
Proof.
  intros Hs Hstop. unfold Py.range, Py.range_len.
  repeat case_decide; try lia. done.
Qed.

Lemma range_NoDup start stop step l :
  Py.range start stop step = Some l → NoDup l.
Proof.
  intros [Hs ->]%range_inv.
  apply NoDup_fmap_2; [|apply NoDup_seqZ].
  intros k1 k2 Hk. nia.
Qed.

(** A slice that starts inside the list and has a positive width is
    the [take] of a [drop]. *)
Lemma slice_take_drop {A : Type} (l : list A) (i c : nat) :
  (i ≤ length l)%nat →
  Py.slice l (Z.of_nat i) (Z.of_nat i + Z.of_nat c) = take c (drop i l).
Proof.
  intros Hi. unfold Py.slice, Py.slice_index.
  repeat case_decide; try lia.
  rewrite (Z.min_l (Z.of_nat i)) by lia. rewrite Nat2Z.id.
  destruct (decide (i + c ≤ length l)%nat) as [Hle|Hgt].
  - rewrite Z.min_l by lia. f_equal. lia.
  - rewrite Z.min_r by lia.
    rewrite !take_ge; [done| |]; rewrite length_drop; lia.
Qed.

End PyFacts.

(** ** The coordinate grid *)

Section GridFacts.

Lemma start_loc_data_inv w h patch_size l :
  Scheduler.start_loc_data w h patch_size = Some l →
  ∃ xs ys, Py.range 0 w patch_size = Some xs ∧
           Py.range 0 h patch_size = Some ys ∧ l = grid_of xs ys.
Proof.
  unfold Scheduler.start_loc_data. intros H.
  destruct (Py.range 0 h patch_size) as [ys|] eqn:Hys; [|done].
  destruct (Py.range 0 w patch_size) as [xs|] eqn:Hxs; [|done].
  simpl in H. injection H as <-. by exists xs, ys.
Qed.

Lemma elem_of_grid_of xs ys x y : (x, y) ∈ grid_of xs ys ↔ x ∈ xs ∧ y ∈ ys.
Proof.
  unfold grid_of. rewrite list_elem_of_bind. split.
  - intros (sy & (sx & Hin & Hsx)%list_elem_of_bind & Hsy).
    apply list_elem_of_singleton in Hin as [= -> ->]. done.
  - intros [Hx Hy]. exists y. split; [|done].
    apply list_elem_of_bind. exists x. split; [|done].
    by apply list_elem_of_singleton.
Qed.

Lemma grid_of_NoDup xs ys : NoDup xs → NoDup ys → NoDup (grid_of xs ys).
Proof.
  intros Hxs Hys. unfold grid_of. apply NoDup_bind; [| |done].
  - intros y1 y2 [x y] _ _ (? & Hin1 & _)%list_elem_of_bind
      (? & Hin2 & _)%list_elem_of_bind.
    apply list_elem_of_singleton in Hin1 as [= _ ->].
    by apply list_elem_of_singleton in Hin2 as [= _ ->].
  - intros y _. apply NoDup_bind; [| |done].
    + intros x1 x2 [x' y'] _ _ Hin1 Hin2.
      apply list_elem_of_singleton in Hin1 as [= -> _].
      by apply list_elem_of_singleton in Hin2 as [= -> _].
    + intros x _. apply NoDup_singleton.
Qed.

Lemma start_loc_data_NoDup w h patch_size l :
  Scheduler.start_loc_data w h patch_size = Some l → NoDup l.
Proof.
  intros (xs & ys & Hxs & Hys & ->)%start_loc_data_inv.
  apply grid_of_NoDup; by eapply range_NoDup.
Qed.

End GridFacts.

(** ** Chunking *)

Section ChunkFacts.

Context {A : Type}.
Implicit Types l : list A.

Lemma concat_slices c l m : concat (slices c l m) = take (m * c) l.
Proof.
  unfold slices. induction m as [|m IH]; [done|].
  rewrite seq_S, fmap_app, concat_app, IH. simpl.
  rewrite app_nil_r, take_take_drop. f_equal. lia.
Qed.

Lemma length_slice c l k :
  length (take c (drop (k * c) l)) = (c `min` (length l - k * c))%nat.
Proof. by rewrite length_take, length_drop. Qed.

Lemma chunk_count_bound l cs (k : nat) :
  0 < cs → (k < chunk_count l cs)%nat ↔ (k * Z.to_nat cs < length l)%nat.
Proof.
  intros Hcs. unfold chunk_count.
  pose proof (range_len_nonneg 0 (Py.len l) cs) as Hn.
  pose proof (range_len_pos_bound (Py.len l) cs (Z.of_nat k) Hcs
                ltac:(lia)) as Hb.
  unfold Py.len in *. split; intros H.
  - assert (Z.of_nat k * cs < Z.of_nat (length l)) by (apply Hb; lia). nia.
  - assert (Z.of_nat k < Py.range_len 0 (Z.of_nat (length l)) cs)
      by (apply Hb; nia). lia.
Qed.

Lemma chunk_size_inv l num_chunks cs :
  Scheduler.chunk_size l num_chunks = Some cs →
  num_chunks ≠ 0 ∧ cs = Py.len l / num_chunks.
Proof. apply floordiv_inv. Qed.

(** With a positive chunk size the comprehension is the list of
    slices of that width. *)
Lemma start_loc_list_pos l num_chunks cs :
  Scheduler.chunk_size l num_chunks = Some cs → 0 < cs →
  Scheduler.start_loc_list l num_chunks
  = Some (slices (Z.to_nat cs) l (chunk_count l cs)).
Proof.
  intros Hcs Hpos. unfold Scheduler.start_loc_list. rewrite Hcs. simpl.
  unfold Py.range. destruct (decide (cs = 0)); [lia|]. simpl. f_equal.
  unfold slices, seqZ. rewrite <- !list_fmap_compose.
  apply list_fmap_ext. intros k ? [-> Hk]%lookup_seq. simpl.
  fold (chunk_count l cs) in Hk. apply chunk_count_bound in Hk; [|done].
  rewrite <- (slice_take_drop l (k * Z.to_nat cs) (Z.to_nat cs)) by lia.
  f_equal; lia.
Qed.

(** A chunk size of zero makes [range] raise. *)
Lemma start_loc_list_zero l num_chunks :
  Scheduler.chunk_size l num_chunks = Some 0 →
  Scheduler.start_loc_list l num_chunks = None.
Proof. intros Hcs. unfold Scheduler.start_loc_list. by rewrite Hcs. Qed.

(** A negative chunk size (a negative [num_chunks]) gives no chunk. *)
Lemma start_loc_list_neg l num_chunks cs :
  Scheduler.chunk_size l num_chunks = Some cs → cs < 0 →
  Scheduler.start_loc_list l num_chunks = Some [].
Proof.
  intros Hcs Hneg. unfold Scheduler.start_loc_list. rewrite Hcs. simpl.
  rewrite range_neg_step; [done|done|unfold Py.len; lia].
Qed.

Lemma start_loc_list_no_divisor l :
  Scheduler.start_loc_list l 0 = None.
Proof. reflexivity. Qed.

(** The chunks, in order, are the list again. *)
Lemma concat_chunks l cs :
  0 < cs → concat (slices (Z.to_nat cs) l (chunk_count l cs)) = l.
Proof.
  intros Hcs. rewrite concat_slices. apply take_ge.
  destruct (decide (chunk_count l cs * Z.to_nat cs < length l)%nat)
    as [Hlt|]; [|lia].
  apply chunk_count_bound in Hlt; [lia|done].
Qed.

(** Every chunk holds between one and [chunk_size] elements. *)
Lemma chunk_lengths l cs c :
  0 < cs → c ∈ slices (Z.to_nat cs) l (chunk_count l cs) →
  (1 ≤ length c ≤ Z.to_nat cs)%nat.
Proof.
  intros Hcs (k & -> & Hk%elem_of_seq)%list_elem_of_fmap.
  rewrite length_slice.
  assert (k < chunk_count l cs)%nat as Hk' by lia.
  apply chunk_count_bound in Hk'; [|done]. lia.
Qed.

(** All chunks but the last hold exactly [chunk_size] elements. *)
Lemma chunk_length_full l cs (k : nat) c :
  0 < cs → (S k < chunk_count l cs)%nat →
  slices (Z.to_nat cs) l (chunk_count l cs) !! k = Some c →
  length c = Z.to_nat cs.
Proof.
  intros Hcs Hk. unfold slices. rewrite list_lookup_fmap.
  rewrite lookup_seq_lt by lia. simpl. intros [= <-].
  rewrite length_slice. apply chunk_count_bound in Hk; [|done]. lia.
Qed.

Lemma length_slices c l m : length (slices c l m) = m.
Proof. unfold slices. by rewrite length_fmap, length_seq. Qed.

(** When [num_chunks] divides the length there are exactly
    [num_chunks] chunks. *)
Lemma chunk_count_divides l num_chunks :
  0 < num_chunks → 0 < Py.len l → (num_chunks | Py.len l) →
  Z.of_nat (chunk_count l (Py.len l / num_chunks)) = num_chunks.
Proof.
  intros Hnc Hl [q Hq]. unfold chunk_count, Py.range_len.
  rewrite Hq, Z.div_mul by lia.
  assert (0 < q) by nia.
  repeat case_decide; try lia.
  rewrite Z2Nat.id.
  - replace (q * num_chunks - 0 - 1) with (q * (num_chunks - 1) + (q - 1))
      by lia.
    rewrite Z.mul_comm, Z.div_add_l by lia.
    rewrite Z.div_small by lia. lia.
  - apply Z.add_nonneg_nonneg; [|lia]. apply Z.div_pos; lia.
Qed.

End ChunkFacts.

(** ** The aggregator *)

Section AggregatorFacts.

Import Aggregator.

Lemma as_completed_pick {A : Type} (l : list A) k picks x :
  l !! (k `mod` length l)%nat = Some x →
  as_completed l (k :: picks)
  = x :: as_completed (delete (k `mod` length l)%nat l) picks.
Proof.
  destruct l as [|f0 l']; [done|]. intros Hx.
  cbn [as_completed]. by rewrite (nth_lookup_Some _ _ _ _ Hx).
Qed.

(** Whatever the picks, the futures come out of [as_completed] each
    exactly once. *)
Lemma as_completed_Permutation {A : Type} (l : list A) picks :
  as_completed l picks ≡ₚ l.
Proof.
  revert l. induction picks as [|k picks IH]; intros l; [done|].
  destruct l as [|f0 l'] eqn:El; [done|]. rewrite <- El.
  assert (k `mod` length l < length l)%nat as Hlt.
  { apply Nat.mod_upper_bound. subst l. simpl. lia. }
  destruct (lookup_lt_is_Some_2 _ _ Hlt) as [x Hx].
  rewrite (as_completed_pick _ _ _ _ Hx), IH.
  symmetry. by apply delete_Permutation.
Qed.


Lemma append_all_app patches res1 : append_all patches res1 = patches ++ res1.
Proof.
  unfold append_all. revert patches.
  induction res1 as [|p res1 IH]; intros patches; simpl.
  - by rewrite app_nil_r.
  - rewrite IH, <- app_assoc. done.
Qed.

Lemma compile_step_app patches res1 :
  (if truthy res1 then append_all patches res1 else patches) = patches ++ res1.
Proof.
  destruct res1; simpl; [by rewrite app_nil_r|].
  apply (append_all_app patches (_ :: _)).
Qed.

Lemma compile_loop_None completed patches :
  None ∈ completed → compile_loop completed patches = None.
Proof.
  revert patches. induction completed as [|f rest IH]; intros patches Hin.
  - by apply not_elem_of_nil in Hin.
  - destruct f as [res1|]; [|done]. simpl. apply IH.
    by apply elem_of_cons in Hin as [?|?].
Qed.

Lemma compile_loop_Some completed patches :
  None ∉ completed →
  compile_loop completed patches = Some (patches ++ concat (results completed)).
Proof.
  revert patches. induction completed as [|f rest IH]; intros patches Hnin.
  - simpl. by rewrite app_nil_r.
  - destruct f as [res1|].
    + cbn [compile_loop result]. simpl. rewrite compile_step_app.
      rewrite IH, <- app_assoc; [done|].
      intros Hin. apply Hnin. by right.
    + exfalso. apply Hnin. left.
Qed.

Lemma concat_Permutation {A : Type} (l1 l2 : list (list A)) :
  l1 ≡ₚ l2 → concat l1 ≡ₚ concat l2.
Proof.
  induction 1 as [|x l1 l2 _ IH|x y l|l1 l2 l3 _ IH1 _ IH2]; simpl.
  - done.
  - by rewrite IH.
  - rewrite !app_assoc. f_equiv. apply Permutation_app_comm.
  - by rewrite IH1.
Qed.

(** What [compile_results] returns: it raises exactly when a task
    raised, and otherwise returns the results of all tasks, each
    exactly once, in completion order. *)
Lemma compile_results_spec futures picks :
  (None ∈ futures ∧ compile_results futures picks = None) ∨
  ((None ∉ futures) ∧
   (∃ patches, compile_results futures picks = Some patches ∧
               patches ≡ₚ concat (results futures))).
Proof.
  unfold compile_results.
  pose proof (as_completed_Permutation futures picks) as Hp.
  destruct (decide (None ∈ futures)) as [Hin|Hnin].
  - left. split; [done|]. apply compile_loop_None. by rewrite Hp.
  - right. split; [done|]. eexists. split.
    + apply compile_loop_Some. by rewrite Hp.
    + simpl. apply concat_Permutation. unfold results. by rewrite Hp.
Qed.

Lemma results_fmap_Some (rs : list (list coord)) :
  results (Some <$> rs) = rs.
Proof.
  unfold results. induction rs as [|r rs IH]; [done|].
  simpl. f_equal. exact IH.
Qed.

Lemma elem_of_concat {A : Type} (ls : list (list A)) (x : A) :
  x ∈ concat ls ↔ ∃ l, l ∈ ls ∧ x ∈ l.
Proof.
  induction ls as [|l ls IH]; simpl.
  - split; [by intros ?%not_elem_of_nil|by intros (? & ?%not_elem_of_nil & _)].
  - rewrite elem_of_app, IH. split.
    + intros [H|(l' & ? & ?)]; [exists l; split; [left|done]|].
      exists l'. split; [by right|done].
    + intros (l' & [->|?]%elem_of_cons & ?); [by left|].
      right. by exists l'.
Qed.


End AggregatorFacts.

(** ** The worker and the scan *)

Section ScanFacts.

Variable var : list Z → option Q.
Variable read_region : coord → Z * Z → Z → option tile.
Variables patch_size reduction : Z.

Local Abbreviation tile_side := (Obs.tile_side patch_size reduction).
Local Abbreviation region_at := (Obs.region_at read_region patch_size reduction).
Local Abbreviation foreground := (Obs.foreground var read_region patch_size reduction).
Local Abbreviation events_at := (Obs.events_at patch_size reduction).
Local Abbreviation events_of := (Obs.events_of patch_size reduction).
Local Abbreviation step := (process_step var read_region patch_size reduction).
Local Abbreviation loop := (process_loop var read_region patch_size reduction).

Lemma process_step_inv res start_loc log res' log' :
  step res start_loc log = Some (res', log') →
  reduction ≠ 0 ∧
  ∃ region, region_at start_loc = Some region ∧
    res' = res ++ filter (λ loc, foreground loc = true) [start_loc] ∧
    log' = log ++ events_at start_loc region.
Proof.
  unfold process_step, wbind, wlift, wsi_read_region, call_threshold,
    wbind, wemit, wlift, wret.
  destruct (Py.floordiv patch_size reduction) as [s|] eqn:Hs; [|done].
  apply floordiv_inv in Hs as [Hred ->]. fold tile_side.
  destruct (read_region start_loc (tile_side, tile_side) 1)
    as [region|] eqn:Hr; [|done].
  intros [= <- <-]. split; [done|]. exists region. split; [done|].
  rewrite <- app_assoc. split; [|done].
  rewrite filter_cons, filter_nil. unfold foreground, region_at. rewrite Hr.
  destruct start_loc as [x y]. simpl.
  destruct (Classifier.threshold var region _); simpl; [done|by rewrite app_nil_r].
Qed.

Lemma process_step_Some res start_loc log region :
  reduction ≠ 0 → region_at start_loc = Some region →
  step res start_loc log
  = Some (res ++ filter (λ loc, foreground loc = true) [start_loc],
          log ++ events_at start_loc region).
Proof.
  intros Hred Hr.
  unfold process_step, wbind, wlift, wsi_read_region, call_threshold,
    wbind, wemit, wlift, wret.
  rewrite floordiv_Some by done. fold tile_side.
  unfold region_at in Hr. rewrite Hr. rewrite <- app_assoc.
  rewrite filter_cons, filter_nil. unfold foreground, region_at. rewrite Hr.
  destruct start_loc as [x y]. simpl.
  destruct (Classifier.threshold var region _); simpl; [done|by rewrite app_nil_r].
Qed.

Lemma process_loop_inv locs res log res' log' :
  loop locs res log = Some (res', log') →
  ∃ regions,
    Forall2 (λ loc region, region_at loc = Some region) locs regions ∧
    res' = res ++ filter (λ loc, foreground loc = true) locs ∧
    log' = log ++ events_of locs regions.
Proof.
  revert res log. induction locs as [|loc locs IH]; intros res log.
  - intros [= <- <-]. exists []. by rewrite !app_nil_r.
  - cbn [process_loop]. unfold wbind at 1.
    destruct (step res loc log) as [[res1 log1]|] eqn:Hstep; [|done].
    apply process_step_inv in Hstep as (_ & region & Hr & -> & ->).
    intros (regions & HF & -> & ->)%IH.
    exists (region :: regions). split; [by constructor|].
    rewrite <- !app_assoc. split; [|done].
    by rewrite <- filter_app.
Qed.

Lemma process_loop_Some locs regions res log :
  reduction ≠ 0 →
  Forall2 (λ loc region, region_at loc = Some region) locs regions →
  loop locs res log
  = Some (res ++ filter (λ loc, foreground loc = true) locs,
          log ++ events_of locs regions).
Proof.
  intros Hred HF. revert res log.
  induction HF as [|loc region locs regions Hr _ IH]; intros res log.
  - simpl. by rewrite !app_nil_r.
  - cbn [process_loop]. unfold wbind at 1.
    rewrite (process_step_Some _ _ _ _ Hred Hr), IH.
    rewrite <- !app_assoc. by rewrite <- filter_app.
Qed.

Local Abbreviation worker := (process_patch var read_region patch_size reduction).

(** What a worker returns, when it returns. *)
Lemma process_patch_inv locs res :
  worker locs = Some res → res = filter (λ loc, foreground loc = true) locs.
Proof.
  unfold process_patch, process_patch_logged.
  destruct (loop locs [] []) as [[res' log']|] eqn:Hl; [|done].
  intros [= <-]. by apply process_loop_inv in Hl as (_ & _ & -> & _).
Qed.

Lemma concat_filter {A : Type} (P : A → Prop) `{∀ x, Decision (P x)}
    (ls : list (list A)) :
  concat (filter P <$> ls) = filter P (concat ls).
Proof.
  induction ls as [|l ls IH]; [done|].
  csimpl. by rewrite filter_app, IH.
Qed.

Local Abbreviation futures_of := (client_map var read_region patch_size reduction).

Lemma client_map_results chunks :
  None ∉ futures_of chunks →
  results (futures_of chunks)
  = filter (λ loc, foreground loc = true) <$> chunks.
Proof.
  unfold client_map, results.
  induction chunks as [|chunk chunks IH]; [done|]. intros Hnin.
  rewrite fmap_cons in Hnin. rewrite fmap_cons.
  destruct (worker chunk) as [res|] eqn:Hw.
  - apply process_patch_inv in Hw as ->. simpl. f_equal.
    apply IH. intros Hin. apply Hnin. by right.
  - exfalso. apply Hnin. left.
Qed.

(** The aggregated list for one set of chunks: the foreground
    coordinates of all chunks, each chunk's contribution once. *)
Lemma aggregate_chunks chunks picks :
  (None ∈ futures_of chunks ∧
   Aggregator.compile_results (futures_of chunks) picks = None) ∨
  (∃ patches,
     Aggregator.compile_results (futures_of chunks) picks = Some patches ∧
     patches ≡ₚ filter (λ loc, foreground loc = true) (concat chunks)).
Proof.
  destruct (compile_results_spec (futures_of chunks) picks)
    as [?|[Hnin (patches & Hc & Hp)]]; [by left|].
  right. exists patches. split; [done|].
  by rewrite Hp, client_map_results, concat_filter.
Qed.

Local Abbreviation run := (scan var read_region patch_size reduction).

(** A scan that completes returns the foreground coordinates of its
    chunks. *)
Lemma scan_inv w h num_chunks picks patches :
  run w h num_chunks picks = Some patches →
  ∃ data chunks,
    Scheduler.start_loc_data w h patch_size = Some data ∧
    Scheduler.start_loc_list data num_chunks = Some chunks ∧
    patches ≡ₚ filter (λ loc, foreground loc = true) (concat chunks).
Proof.
  unfold scan.
  destruct (Scheduler.start_loc_data w h patch_size) as [data|];
    simpl; [|done].
  destruct (Scheduler.start_loc_list data num_chunks) as [chunks|] eqn:Hch;
    simpl; [|done].
  intros Hc. exists data, chunks. do 2 (split; [done|]).
  destruct (aggregate_chunks chunks picks) as [[_ Hn]|(p & Hp & Hperm)];
    congruence.
Qed.

(** Two completion orders: both scans raise, or both return the same
    coordinates up to order. *)
Lemma scan_picks w h num_chunks picks1 picks2 :
  option_Forall2 (≡ₚ) (run w h num_chunks picks1) (run w h num_chunks picks2).
Proof.
  unfold scan.
  destruct (Scheduler.start_loc_data w h patch_size) as [data|]; simpl;
    [|constructor].
  destruct (Scheduler.start_loc_list data num_chunks) as [chunks|]; simpl;
    [|constructor].
  destruct (aggregate_chunks chunks picks1) as [[Hin Hn1]|(p1 & Hs1 & Hp1)],
    (aggregate_chunks chunks picks2) as [[Hin' Hn2]|(p2 & Hs2 & Hp2)].
  - rewrite Hn1, Hn2. constructor.
  - destruct (compile_results_spec (futures_of chunks) picks2)
      as [[_ ?]|[? _]]; [congruence|done].
  - destruct (compile_results_spec (futures_of chunks) picks1)
      as [[_ ?]|[? _]]; [congruence|done].
  - rewrite Hs1, Hs2. constructor. by rewrite Hp1, Hp2.
Qed.

End ScanFacts.

(** ** The mask *)

Section MaskFacts.

Import Mask.

Lemma zeros_wf r c :
  0 ≤ r → 0 ≤ c → ∃ mask, zeros r c = Some mask ∧ mask_wf mask r c ∧
    rows mask = replicate (Z.to_nat r) (replicate (Z.to_nat c) 0).
Proof.
  intros Hr Hc. unfold zeros. rewrite decide_True by done.
  eexists. split; [done|]. split; [|done].
  repeat split; simpl; try done.
  - by rewrite length_replicate.
  - apply Forall_replicate. by rewrite length_replicate.
Qed.

Lemma getitem_zeros r c (i j : nat) :
  (i < r)%nat → (j < c)%nat →
  (row ← replicate r (replicate c 0) !! i; row !! j) = Some 0.
Proof.
  intros Hi Hj. rewrite lookup_replicate_2 by done. simpl.
  by rewrite lookup_replicate_2.
Qed.

Lemma index_in_bounds n k : 0 ≤ k < n → index n k = Some (Z.to_nat k).
Proof. intros H. unfold index. by rewrite decide_True. Qed.

(** An assignment inside the array writes that cell and no other. *)
Lemma setitem_spec mask r c i j v :
  mask_wf mask r c → 0 ≤ i < r → 0 ≤ j < c →
  ∃ mask', setitem mask i j v = Some mask' ∧ mask_wf mask' r c ∧
    ∀ a b : nat, (a < Z.to_nat r)%nat → (b < Z.to_nat c)%nat →
      getitem mask' a b
      = if decide ((i, j) = (Z.of_nat a, Z.of_nat b)) then Some v
        else getitem mask a b.
Proof.
  intros (Hsh & Hr & Hc & Hlen & Hrows) Hi Hj.
  unfold setitem. rewrite Hsh. simpl.
  rewrite !index_in_bounds by done. simpl.
  eexists. split; [done|]. split.
  - repeat split; simpl; try done.
    + by rewrite length_alter.
    + apply Forall_alter; [done|]. intros row _ Hrow.
      by rewrite length_insert.
  - intros a b Ha Hb. unfold getitem. simpl.
    destruct (decide (Z.to_nat i = a)) as [<-|Hne].
    + rewrite list_lookup_alter_eq.
      destruct (lookup_lt_is_Some_2 (rows mask) (Z.to_nat i) ltac:(lia))
        as [row Hrow].
      rewrite Hrow. simpl.
      assert (length row = Z.to_nat c) as Hrl.
      { rewrite Forall_forall in Hrows. apply Hrows.
        by eapply list_elem_of_lookup_2. }
      destruct (decide (Z.to_nat j = b)) as [<-|Hneb].
      * rewrite list_lookup_insert_eq by lia.
        rewrite decide_True; [done|]. f_equal; lia.
      * rewrite list_lookup_insert_ne by done.
        rewrite decide_False; [done|]. intros [= _ ->]. lia.
    + rewrite list_lookup_alter_ne by done.
      rewrite decide_False; [done|]. intros [= -> _]. lia.
Qed.

Lemma target_cell_nonneg patch_size reduction patch :
  0 < patch_size → 0 < reduction → 0 ≤ patch.1 → 0 ≤ patch.2 →
  0 ≤ (target_cell patch_size reduction patch).1 ∧
  0 ≤ (target_cell patch_size reduction patch).2.
Proof.
  intros. unfold target_cell. simpl. split; apply Z.div_pos; nia.
Qed.

(** One iteration: the projected cell is set when it lies inside the
    grid, and nothing happens otherwise. *)
Lemma mask_step_spec w h patch_size reduction mask patch :
  0 < patch_size → 0 < reduction → 0 ≤ patch.1 → 0 ≤ patch.2 →
  mask_wf mask (h / patch_size) (w / patch_size) →
  ∃ mask', mask_step w h patch_size reduction mask patch = Some mask' ∧
    mask_wf mask' (h / patch_size) (w / patch_size) ∧
    ∀ a b : nat,
      (a < Z.to_nat (h / patch_size))%nat →
      (b < Z.to_nat (w / patch_size))%nat →
      getitem mask' a b
      = if decide (target_cell patch_size reduction patch
                   = (Z.of_nat a, Z.of_nat b))
        then Some 1 else getitem mask a b.
Proof.
  intros Hps Hred Hx Hy Hwf.
  destruct (target_cell_nonneg patch_size reduction patch) as [Hi Hj];
    [done..|].
  unfold mask_step, target_cell in *. simpl in Hi, Hj.
  rewrite !floordiv_Some by nia. simpl.
  destruct (decide (patch.2 / (patch_size * reduction) < h / patch_size))
    as [Hlt_i|Hge_i].
  - destruct (decide (patch.1 / (patch_size * reduction) < w / patch_size))
      as [Hlt_j|Hge_j].
    + by apply setitem_spec.
    + exists mask. do 2 (split; [done|]). intros a b Ha Hb.
      rewrite decide_False; [done|]. intros [= _ ?]. lia.
  - exists mask. do 2 (split; [done|]). intros a b Ha Hb.
    rewrite decide_False; [done|]. intros [= ? _]. lia.
Qed.

Lemma mask_loop_spec w h patch_size reduction patches mask :
  0 < patch_size → 0 < reduction →
  Forall (λ p : coord, 0 ≤ p.1 ∧ 0 ≤ p.2) patches →
  mask_wf mask (h / patch_size) (w / patch_size) →
  ∃ mask', mask_loop w h patch_size reduction patches mask = Some mask' ∧
    mask_wf mask' (h / patch_size) (w / patch_size) ∧
    ∀ a b : nat,
      (a < Z.to_nat (h / patch_size))%nat →
      (b < Z.to_nat (w / patch_size))%nat →
      getitem mask' a b
      = if decide (Exists (λ p, target_cell patch_size reduction p
                                = (Z.of_nat a, Z.of_nat b)) patches)
        then Some 1 else getitem mask a b.
Proof.
  intros Hps Hred Hnn. revert mask.
  induction Hnn as [|p patches [Hx Hy] _ IH]; intros mask Hwf.
  - exists mask. do 2 (split; [done|]). intros a b _ _.
    rewrite decide_False; [done|]. by intros ?%Exists_nil.
  - destruct (mask_step_spec w h patch_size reduction mask p)
      as (mask1 & Hstep & Hwf1 & Hget1); [done..|].
    destruct (IH mask1 Hwf1) as (mask' & Hloop & Hwf' & Hget').
    exists mask'. cbn [mask_loop]. rewrite Hstep. simpl.
    do 2 (split; [done|]). intros a b Ha Hb.
    rewrite Hget', Hget1 by done.
    repeat case_decide; try done.
    + exfalso. rewrite Exists_cons in *. tauto.
    + exfalso. rewrite Exists_cons in *. tauto.
    + exfalso. rewrite Exists_cons in *. tauto.
Qed.

End MaskFacts.

(** * The claims *)

(** ** C2: the aggregator *)


(** Three tasks, one of which found nothing, in two completion orders. *)
Example compile_results_two_orders :
  Aggregator.compile_results [Some [(0, 0); (164, 0)]; Some []; Some [(0, 164)]]
    [] = Some [(0, 0); (164, 0); (0, 164)] ∧
  Aggregator.compile_results [Some [(0, 0); (164, 0)]; Some []; Some [(0, 164)]]
    [2; 1]%nat = Some [(0, 164); (0, 0); (164, 0)].
Proof. split; reflexivity. Qed.

(** ** C4: the coordinate grid *)

(** C4. The scheduling cell generates [(x, y)] exactly for [x] in
    [range(0, w, patch_size)] and [y] in [range(0, h, patch_size)], and
    raises exactly when the ranges do; for a positive [patch_size] these
    are the multiples of [patch_size] below [w] and below [h]. For
    [w = h = 1000] and [patch_size = 164] each axis has the seven start
    positions 0, 164, 328, 492, 656, 820, 984. *)
Theorem start_loc_data_grid (w h patch_size : Z) :
  match Py.range 0 w patch_size, Py.range 0 h patch_size with
  | Some xs, Some ys =>
      ∃ data, Scheduler.start_loc_data w h patch_size = Some data ∧
        data = grid_of xs ys ∧
        (∀ x y, (x, y) ∈ data ↔ x ∈ xs ∧ y ∈ ys) ∧
        (0 < patch_size →
         ∀ x y, (x, y) ∈ data ↔
                (0 ≤ x < w ∧ (patch_size | x)) ∧ (0 ≤ y < h ∧ (patch_size | y)))
  | _, _ => Scheduler.start_loc_data w h patch_size = None
  end ∧
  Py.range 0 1000 Scheduler.patch_size = Some [0; 164; 328; 492; 656; 820; 984] ∧
  (∃ data, Scheduler.start_loc_data 1000 1000 Scheduler.patch_size = Some data ∧
     length data = 49%nat ∧
     ∀ x y, (x, y) ∈ data ↔
            x ∈ [0; 164; 328; 492; 656; 820; 984] ∧
            y ∈ [0; 164; 328; 492; 656; 820; 984]).
Proof.
  split; [|split].
  - unfold Scheduler.start_loc_data.
    destruct (Py.range 0 w patch_size) as [xs|] eqn:Hxs,
      (Py.range 0 h patch_size) as [ys|] eqn:Hys; simpl; try done.
    exists (grid_of xs ys). do 2 (split; [done|]). split.
    + intros x y. apply elem_of_grid_of.
    + intros Hps x y. rewrite elem_of_grid_of.
      by rewrite (elem_of_range_pos w patch_size xs x Hps Hxs),
        (elem_of_range_pos h patch_size ys y Hps Hys).
  - reflexivity.
  - eexists. split; [reflexivity|]. split; [reflexivity|].
    intros x y. apply (elem_of_grid_of [0; 164; 328; 492; 656; 820; 984]
                         [0; 164; 328; 492; 656; 820; 984]).
Qed.

(** ** C3, C8, C10: chunking *)

(** What the chunking comprehension returns for a list that holds at
    least [num_chunks] elements, [num_chunks] being positive. *)
Lemma start_loc_list_total {A : Type} (l : list A) (num_chunks : Z) :
  1 ≤ num_chunks ≤ Py.len l →
  let cs := Py.len l / num_chunks in
  1 ≤ cs ∧
  Scheduler.start_loc_list l num_chunks
  = Some (slices (Z.to_nat cs) l (chunk_count l cs)).
Proof.
  intros Hnc cs.
  assert (1 ≤ cs) as Hcs.
  { unfold cs. apply Z.div_le_lower_bound; lia. }
  split; [done|]. apply start_loc_list_pos; [|lia].
  unfold Scheduler.chunk_size. apply floordiv_Some. lia.
Qed.

(** The number of chunks is never below [num_chunks], and it is
    [num_chunks] exactly when [num_chunks] divides the length. *)
Lemma chunk_count_exact {A : Type} (l : list A) (num_chunks : Z) :
  1 ≤ num_chunks ≤ Py.len l →
  num_chunks ≤ Z.of_nat (chunk_count l (Py.len l / num_chunks)) ∧
  (Z.of_nat (chunk_count l (Py.len l / num_chunks)) = num_chunks ↔
   (num_chunks | Py.len l)).
Proof.
  intros Hnc.
  assert (1 ≤ Py.len l / num_chunks) as Hcs
    by (apply Z.div_le_lower_bound; lia).
  pose proof (Z.div_mod (Py.len l) num_chunks ltac:(lia)) as Hdm.
  pose proof (Z.mod_pos_bound (Py.len l) num_chunks ltac:(lia)) as Hmb.
  set (cs := Py.len l / num_chunks) in *.
  set (n := chunk_count l cs).
  assert (∀ k : nat, (k < n)%nat ↔ (k * Z.to_nat cs < length l)%nat) as Hb
    by (intros k; apply chunk_count_bound; lia).
  unfold Py.len in *.
  assert (num_chunks ≤ Z.of_nat n) as Hge.
  { destruct (decide (num_chunks ≤ Z.of_nat n)) as [|Hlt]; [done|].
    assert (¬ (n < n)%nat) as Hn by lia.
    rewrite Hb in Hn. nia. }
  split; [done|]. split.
  - intros Heq. apply Z.mod_divide; [lia|].
    assert (¬ (n < n)%nat) as Hn by lia.
    rewrite Hb in Hn. nia.
  - intros Hdiv. apply Z.mod_divide in Hdiv; [|lia].
    destruct (decide (Z.of_nat n = num_chunks)) as [|Hne]; [done|].
    assert (Z.to_nat num_chunks < n)%nat as Hlt by lia.
    apply Hb in Hlt. nia.
Qed.

(** C3. On the 49 coordinates of a 1000 by 1000 slide and for
    [num_chunks = 32] the chunking comprehension returns 49 chunks of one
    coordinate each, not 32 chunks; ten elements in three chunks come out
    as four chunks, the last one the smallest. *)
Theorem start_loc_list_not_num_chunks :
  (∃ data chunks,
     Scheduler.start_loc_data 1000 1000 Scheduler.patch_size = Some data ∧
     length data = 49%nat ∧
     Scheduler.chunk_size data Scheduler.num_chunks = Some 1 ∧
     Scheduler.start_loc_list data Scheduler.num_chunks = Some chunks ∧
     length chunks = 49%nat ∧
     Forall (λ c, length c = 1%nat) chunks) ∧
  Scheduler.start_loc_list [0; 1; 2; 3; 4; 5; 6; 7; 8; 9] 3
  = Some [[0; 1; 2]; [3; 4; 5]; [6; 7; 8]; [9]].
Proof.
  split; [|reflexivity].
  do 2 eexists. split; [reflexivity|]. split; [reflexivity|].
  split; [reflexivity|]. split; [reflexivity|]. split; [reflexivity|].
  repeat constructor.
Qed.

(** C8. A list of 49 tiles chunked with [num_chunks = 32]: the chunk
    sizes differ by at most one, and the chunks concatenated in order
    are the list. *)
Theorem chunks_of_49_by_32 {A : Type} (l : list A) :
  length l = 49%nat →
  ∃ chunks, Scheduler.start_loc_list l 32 = Some chunks ∧
    concat chunks = l ∧
    ∀ c1 c2, c1 ∈ chunks → c2 ∈ chunks →
      Z.abs (Py.len c1 - Py.len c2) ≤ 1.
Proof.
  intros Hlen.
  destruct (start_loc_list_total l 32) as [_ Hs].
  { unfold Py.len. lia. }
  assert (Py.len l / 32 = 1) as Hcs by (unfold Py.len; by rewrite Hlen).
  rewrite Hcs in Hs. eexists. split; [exact Hs|]. split.
  - by apply concat_chunks.
  - intros c1 c2 H1%chunk_lengths H2%chunk_lengths; [|done..].
    unfold Py.len. lia.
Qed.

Lemma chunks_of_49_by_32_witness :
  ∃ chunks, Scheduler.start_loc_list (seqZ 0 49) 32 = Some chunks ∧
    concat chunks = seqZ 0 49 ∧
    ∀ c1 c2, c1 ∈ chunks → c2 ∈ chunks →
      Z.abs (Py.len c1 - Py.len c2) ≤ 1.
Proof. apply (chunks_of_49_by_32 (seqZ 0 49)). reflexivity. Defined.

(** C10. With [1 ≤ num_chunks ≤ len(start_loc_data)] the chunking
    comprehension returns chunks that are all non-empty (and that make
    up the list); with [num_chunks] above the length, [chunk_size] is 0
    and the comprehension raises. *)
Theorem start_loc_list_total_iff {A : Type} (l : list A) (num_chunks : Z) :
  (1 ≤ num_chunks ≤ Py.len l →
   ∃ chunks, Scheduler.start_loc_list l num_chunks = Some chunks ∧
     Forall (λ c, c ≠ []) chunks ∧ concat chunks = l) ∧
  (Py.len l < num_chunks →
   Scheduler.chunk_size l num_chunks = Some 0 ∧
   Scheduler.start_loc_list l num_chunks = None).
Proof.
  split.
  - intros Hnc. destruct (start_loc_list_total l num_chunks Hnc) as [Hcs Hs].
    eexists. split; [exact Hs|]. split.
    + apply Forall_forall. intros c Hc%chunk_lengths; [|lia].
      destruct c; [simpl in Hc; lia|done].
    + apply concat_chunks. lia.
  - intros Hlt.
    assert (Scheduler.chunk_size l num_chunks = Some 0) as Hcs.
    { unfold Scheduler.chunk_size. rewrite floordiv_Some by (unfold Py.len in *; lia).
      f_equal. apply Z.div_small. unfold Py.len in *. lia. }
    split; [done|]. by apply start_loc_list_zero.
Qed.

Lemma start_loc_list_total_iff_witness :
  (∃ chunks, Scheduler.start_loc_list [(0, 0); (164, 0); (328, 0)] 2
             = Some chunks ∧
     Forall (λ c, c ≠ []) chunks ∧
     concat chunks = [(0, 0); (164, 0); (328, 0)]) ∧
  (Scheduler.chunk_size [(0, 0); (164, 0); (328, 0)] 4 = Some 0 ∧
   Scheduler.start_loc_list [(0, 0); (164, 0); (328, 0)] 4 = None).
Proof.
  split.
  - apply (start_loc_list_total_iff [(0, 0); (164, 0); (328, 0)] 2).
    unfold Py.len. simpl. lia.
  - apply (start_loc_list_total_iff [(0, 0); (164, 0); (328, 0)] 4).
    unfold Py.len. simpl. lia.
Defined.

(** ** The level's downsample factor *)

(** Floor division of ints is the floor of the rational quotient. *)
Lemma floordiv_Qfloor (a b : Z) :
  b ≠ 0 → a / b = Qfloor (inject_Z a / inject_Z b).
Proof.
  intros Hb. unfold Qdiv, Qinv, Qmult, Qfloor, inject_Z.
  destruct b as [|r|r]; [done| |]; simpl.
  - by rewrite Z.mul_1_r.
  - rewrite <- (Z.div_opp_opp a (Z.neg r)) by done.
    f_equal. lia.
Qed.

Lemma int_inject_Z (z : Z) : Py.int (inject_Z z) = z.
Proof.
  unfold Py.int. destruct (Qle_bool 0 (inject_Z z)).
  - apply Qfloor_Z.
  - apply Qceiling_Z.
Qed.

(** [int] of a non-negative float is the largest int not above it. *)
Lemma int_nonneg (x : Q) :
  (0 <= x)%Q → Py.int x = Qfloor x ∧ 0 ≤ Py.int x ∧
  (inject_Z (Py.int x) <= x)%Q ∧ (x < inject_Z (Py.int x + 1))%Q.
Proof.
  intros Hx. unfold Py.int.
  apply Qle_bool_iff in Hx as Hb. rewrite Hb. split; [done|]. split.
  - change 0 with (Qfloor 0). by apply Qfloor_resp_le.
  - split; [apply Qfloor_le|apply Qlt_floor].
Qed.

Lemma reduction_of_inv (level_downsamples : list Q) (reduction : Z) :
  reduction_of level_downsamples = Some reduction →
  ∃ downsample, level_downsamples !! 1%nat = Some downsample ∧
                reduction = Py.int downsample.
Proof.
  unfold reduction_of.
  destruct (level_downsamples !! 1%nat) as [d|]; [|done].
  intros [= <-]. by exists d.
Qed.

(** With a whole downsample factor the cell the code computes is the
    cell of the formula on floats. *)
Lemma target_cell_float (patch_size reduction : Z) (downsample : Q)
    (patch : coord) :
  patch_size * reduction ≠ 0 → (downsample == inject_Z reduction)%Q →
  target_cell patch_size reduction patch
  = float_cell patch_size downsample patch.
Proof.
  intros Hnz Hd. unfold target_cell, float_cell.
  rewrite !Hd, <- !inject_Z_mult, <- !floordiv_Qfloor by done. done.
Qed.

(** ** C5: the mask *)

(** C5. The mask cell divides by
    [patch_size * reduction], where [reduction] is the level's
    downsample factor cut to an int; this is the cell of the formula
    with the level's own factor when that factor is a whole number. For
    accepted coordinates (which are non-negative) the cell returns a
    grid of shape [(h // patch_size, w // patch_size)] in which the cell
    [(i, j)] is 1 exactly when some accepted [(x, y)] has
    [i = y // (patch_size * reduction)] and
    [j = x // (patch_size * reduction)], and is 0 otherwise; coordinates
    projected outside the grid are skipped without an error, and with no
    accepted coordinate the grid is all zero. *)
Theorem mask_build_truncated_downsample
    (w h patch_size : Z) (level_downsamples : list Q) (reduction : Z)
    (patches : list coord) :
  reduction_of level_downsamples = Some reduction →
  0 < patch_size → 0 < reduction → 0 ≤ w → 0 ≤ h →
  Forall (λ p : coord, 0 ≤ p.1 ∧ 0 ≤ p.2) patches →
  (∃ downsample,
     level_downsamples !! 1%nat = Some downsample ∧
     reduction = Py.int downsample ∧
     (inject_Z reduction <= downsample)%Q ∧
     ((downsample == inject_Z reduction)%Q →
      ∀ p, target_cell patch_size reduction p
           = float_cell patch_size downsample p)) ∧
  ∃ mask, Mask.build w h patch_size reduction patches = Some mask ∧
    mask_wf mask (h / patch_size) (w / patch_size) ∧
    (∀ i j : nat, Z.of_nat i < h / patch_size → Z.of_nat j < w / patch_size →
       Mask.getitem mask i j
       = Some (if decide (Exists (λ p, target_cell patch_size reduction p
                                       = (Z.of_nat i, Z.of_nat j)) patches)
               then 1 else 0)) ∧
    (patches = [] →
     Mask.rows mask = replicate (Z.to_nat (h / patch_size))
                        (replicate (Z.to_nat (w / patch_size)) 0)).
Proof.
  intros (d & Hd & Hint)%reduction_of_inv Hps Hred Hw Hh Hnn. split.
  - exists d. do 2 (split; [done|]). split.
    + destruct (Qlt_le_dec d 0) as [Hneg|Hpos].
      * exfalso. unfold Py.int in Hint.
        destruct (Qle_bool 0 d) eqn:Hb.
        { apply Qle_bool_iff in Hb. by apply Qlt_not_le in Hneg. }
        assert (Qceiling d ≤ 0); [|lia].
        change 0 with (Qceiling 0). apply Qceiling_resp_le.
        by apply Qlt_le_weak.
      * rewrite Hint. by apply int_nonneg.
    + intros Hwhole p. apply target_cell_float; [lia|done].
  - assert (0 ≤ h / patch_size) as Hr by (apply Z.div_pos; lia).
    assert (0 ≤ w / patch_size) as Hc by (apply Z.div_pos; lia).
    destruct (zeros_wf _ _ Hr Hc) as (mask0 & Hz & Hwf0 & Hrows0).
    destruct (mask_loop_spec w h patch_size reduction patches mask0)
      as (mask & Hloop & Hwf & Hget); [done..|].
    exists mask. unfold Mask.build. rewrite !floordiv_Some by lia. simpl.
    rewrite Hz. simpl. split; [done|]. split; [done|]. split.
    + intros i j Hi Hj. rewrite Hget by lia.
      case_decide; [done|]. unfold Mask.getitem. rewrite Hrows0.
      apply getitem_zeros; lia.
    + intros ->. simpl in Hloop. by injection Hloop as <-.
Qed.

Lemma mask_build_truncated_downsample_witness :
  ∃ mask,
    Mask.build 500 500 164 4
      [(0, 0); (656, 0); (656, 656); (1400, 100); (2000, 4000)] = Some mask ∧
    Mask.rows mask = [[1; 1; 1]; [0; 1; 0]; [0; 0; 0]].
Proof.
  destruct (mask_build_truncated_downsample 500 500 164 demo_downsamples 4
              [(0, 0); (656, 0); (656, 656); (1400, 100); (2000, 4000)])
    as (_ & mask & Hb & _); [reflexivity|lia..| |].
  - repeat constructor; simpl; lia.
  - exists mask. split; [exact Hb|].
    vm_compute in Hb. by injection Hb as <-.
Defined.

(** The formula with the level's own downsample factor is not what the
    mask cell computes: at a factor of 4.0001220703125 the code cuts
    [reduction] to 4 and puts the accepted tile [(0, 656)] in row
    [656 // (164 * 4) = 1], where the formula on floats gives row
    [656 // (164 * 4.0001220703125) = 0]. *)
Lemma mask_cell_not_of_float_downsample :
  reduction_of demo_downsamples = Some 4 ∧
  target_cell 164 4 (0, 656) = (1, 0) ∧
  float_cell 164 (32769 # 8192) (0, 656) = (0, 0) ∧
  Mask.rows <$> Mask.build 500 500 164 4 [(0, 656)]
  = Some [[0; 0; 0]; [1; 0; 0]; [0; 0; 0]].
Proof. repeat split; reflexivity. Qed.

(** ** C6: the worker *)

(** The integer quotient a worker asks for is the floor of the rational
    quotient. *)
Lemma tile_side_floor (patch_size reduction : Z) :
  reduction ≠ 0 →
  Obs.tile_side patch_size reduction
  = Qfloor (inject_Z patch_size / inject_Z reduction).
Proof. apply floordiv_Qfloor. Qed.

(** C6. For every coordinate of its
    sub-list, in order, a worker issues one [read_region] at level 1, at
    that coordinate (level-0 coordinates) and for a square of side
    [patch_size // reduction], and then one [threshold] call on the
    region read; it returns the coordinates whose region classifies as
    foreground, in order. It returns whenever [reduction] is not zero
    and every read succeeds. [reduction] is the level's downsample
    factor cut to an int, so the side is the floor of [patch_size]
    divided by that int; it is the floor of [patch_size] divided by the
    level's own factor when that factor is a whole number. *)
Theorem process_patch_reads_at_truncated_downsample
    (var : list Z → option Q)
    (read_region : coord → Z * Z → Z → option tile)
    (patch_size : Z) (level_downsamples : list Q) (reduction : Z)
    (start_loc_list : list coord) :
  reduction_of level_downsamples = Some reduction →
  (∃ downsample,
     level_downsamples !! 1%nat = Some downsample ∧
     reduction = Py.int downsample ∧
     (reduction ≠ 0 →
      patch_size / reduction
      = Qfloor (inject_Z patch_size / inject_Z (Py.int downsample))) ∧
     (reduction ≠ 0 → (downsample == inject_Z reduction)%Q →
      patch_size / reduction = Qfloor (inject_Z patch_size / downsample))) ∧
  (∀ res log,
     process_patch_logged var read_region patch_size reduction start_loc_list []
     = Some (res, log) →
     ∃ regions,
       Forall2 (λ loc region,
                  read_region loc (patch_size / reduction,
                                   patch_size / reduction) 1 = Some region)
               start_loc_list regions ∧
       log = concat (zip_with
                       (λ loc region,
                          [ReadRegion loc (patch_size / reduction,
                                           patch_size / reduction) 1;
                           Classify region 80%Q])
                       start_loc_list regions) ∧
       res = filter (λ loc, Obs.foreground var read_region patch_size reduction
                              loc = true) start_loc_list) ∧
  (∀ regions,
     reduction ≠ 0 →
     Forall2 (λ loc region,
                Obs.region_at read_region patch_size reduction loc
                = Some region) start_loc_list regions →
     process_patch_logged var read_region patch_size reduction start_loc_list []
     = Some (filter (λ loc, Obs.foreground var read_region patch_size reduction
                              loc = true) start_loc_list,
             Obs.events_of patch_size reduction start_loc_list regions) ∧
     process_patch var read_region patch_size reduction start_loc_list
     = Some (filter (λ loc, Obs.foreground var read_region patch_size reduction
                              loc = true) start_loc_list)).
Proof.
  intros (d & Hd & Hint)%reduction_of_inv. split; [|split].
  - exists d. do 2 (split; [done|]). split.
    + intros Hred. rewrite <- Hint. by apply floordiv_Qfloor.
    + intros Hred Hwhole. rewrite Hwhole. by apply floordiv_Qfloor.
  - intros res log (regions & HF & -> & ->)%process_loop_inv.
    exists regions. done.
  - intros regions Hred HF.
    pose proof (process_loop_Some var read_region patch_size reduction
                  start_loc_list regions [] [] Hred HF) as Hl.
    simpl in Hl. split; [exact Hl|].
    unfold process_patch, process_patch_logged. by rewrite Hl.
Qed.

Lemma process_patch_reads_at_truncated_downsample_witness :
  process_patch_logged exact_var demo_slide 164 4
    [(0, 0); (328, 0); (492, 164)] []
  = Some ([(328, 0); (492, 164)],
          [ReadRegion (0, 0) (41, 41) 1;
           Classify [[[255; 255; 255]; [255; 255; 255]]] 80%Q;
           ReadRegion (328, 0) (41, 41) 1;
           Classify [[[0; 200; 30]; [250; 10; 90]]] 80%Q;
           ReadRegion (492, 164) (41, 41) 1;
           Classify [[[0; 200; 30]; [250; 10; 90]]] 80%Q]).
Proof.
  destruct (process_patch_reads_at_truncated_downsample exact_var demo_slide
              164 demo_downsamples 4 [(0, 0); (328, 0); (492, 164)])
    as (_ & _ & Hruns); [reflexivity|].
  apply (Hruns [[[[255; 255; 255]; [255; 255; 255]]];
                [[[0; 200; 30]; [250; 10; 90]]];
                [[[0; 200; 30]; [250; 10; 90]]]]).
  - lia.
  - repeat constructor.
Defined.

(** The side a worker asks for is not [patch_size] divided by the
    level's own downsample factor, rounded down: at a factor of
    4.0001220703125 the code cuts [reduction] to 4 and reads squares of
    side [164 // 4 = 41], where the floor of [164 / 4.0001220703125] is
    40. *)
Lemma tile_side_not_floor_of_float_downsample :
  reduction_of demo_downsamples = Some 4 ∧
  process_patch_logged exact_var demo_slide 164 4 [(328, 0)] []
  = Some ([(328, 0)],
          [ReadRegion (328, 0) (41, 41) 1;
           Classify [[[0; 200; 30]; [250; 10; 90]]] 80%Q]) ∧
  Qfloor (inject_Z 164 / (32769 # 8192)) = 40.
Proof. repeat split; reflexivity. Qed.

(** ** C7: determinism of the scan *)

(** C7. Two runs of the scan on the same slide with the same parameters
    return the same set of coordinates (or both raise), whatever the
    order in which the tasks complete in each run. *)
Theorem scan_deterministic
    (var : list Z → option Q)
    (read_region : coord → Z * Z → Z → option tile)
    (patch_size reduction w h num_chunks : Z) (picks1 picks2 : list nat) :
  tile_set <$> scan var read_region patch_size reduction w h num_chunks picks1
  = tile_set <$> scan var read_region patch_size reduction w h num_chunks picks2.
Proof.
  destruct (scan_picks var read_region patch_size reduction w h num_chunks
              picks1 picks2) as [p1 p2 Hp|]; [|done].
  simpl. f_equal. unfold tile_set. by rewrite Hp.
Qed.

(** Two runs over the demo slide in which the tasks complete in
    different orders: two different lists, one set. *)
Example scan_demo_two_orders :
  scan exact_var demo_slide 164 4 656 328 2 []
  = Some [(328, 0); (492, 0); (328, 164); (492, 164)] ∧
  scan exact_var demo_slide 164 4 656 328 2 [1%nat]
  = Some [(328, 164); (492, 164); (328, 0); (492, 0)].
Proof. split; reflexivity. Qed.

(** ** C9: no duplicates *)

Lemma start_loc_list_inv {A : Type} (l : list A) (num_chunks : Z) chunks :
  Scheduler.start_loc_list l num_chunks = Some chunks →
  (num_chunks < 0 ∧ chunks = []) ∨
  (1 ≤ num_chunks ≤ Py.len l ∧ concat chunks = l).
Proof.
  intros Hs.
  destruct (Scheduler.chunk_size l num_chunks) as [cs|] eqn:Hcs.
  2:{ unfold Scheduler.start_loc_list in Hs. by rewrite Hcs in Hs. }
  pose proof Hcs as [Hnc Hq]%chunk_size_inv.
  assert (0 ≤ Py.len l) as Hlen by (unfold Py.len; lia).
  destruct (Z.lt_trichotomy cs 0) as [Hneg|[->|Hpos]].
  - rewrite (start_loc_list_neg l num_chunks cs Hcs Hneg) in Hs.
    injection Hs as <-. left. split; [|done].
    destruct (decide (num_chunks < 0)) as [|Hge]; [done|].
    assert (0 ≤ Py.len l / num_chunks) by (apply Z.div_pos; lia). lia.
  - by rewrite (start_loc_list_zero l num_chunks Hcs) in Hs.
  - rewrite (start_loc_list_pos l num_chunks cs Hcs Hpos) in Hs.
    injection Hs as <-. right. split; [|by apply concat_chunks].
    assert (0 < num_chunks).
    { destruct (decide (0 < num_chunks)) as [|Hle]; [done|].
      assert (Py.len l / num_chunks ≤ 0); [|lia].
      pose proof (Z.div_mod (Py.len l) num_chunks Hnc).
      pose proof (Z.mod_neg_bound (Py.len l) num_chunks ltac:(lia)). nia. }
    split; [lia|].
    destruct (decide (num_chunks ≤ Py.len l)) as [|Hgt]; [done|].
    rewrite Z.div_small in Hq by lia. lia.
Qed.

(** Sub-lists whose concatenation has no duplicate are pairwise
    disjoint. *)
Lemma concat_NoDup_disjoint {A : Type} (ls : list (list A)) :
  NoDup (concat ls) →
  ∀ (i j : nat) (a b : list A), i ≠ j → ls !! i = Some a → ls !! j = Some b →
    ∀ x, x ∈ a → x ∉ b.
Proof.
  induction ls as [|l0 ls IH]; [by intros _ [|?]|].
  simpl. intros (Hl0 & Hdisj & Hrest)%NoDup_app i j a b Hij Ha Hb x Hxa Hxb.
  destruct i as [|i], j as [|j]; simpl in Ha, Hb; try done.
  - injection Ha as <-. apply (Hdisj x Hxa).
    apply elem_of_concat. exists b. split; [|done].
    by eapply list_elem_of_lookup_2.
  - injection Hb as <-. apply (Hdisj x Hxb).
    apply elem_of_concat. exists a. split; [|done].
    by eapply list_elem_of_lookup_2.
  - eapply (IH Hrest i j a b); [lia|done..].
Qed.

(** C9. When the scan completes, the
    aggregated list holds no coordinate twice: the grid has no
    duplicate, the chunks are pairwise disjoint, and the result is, up
    to order, the foreground coordinates of the chunks. For a positive
    [num_chunks] the chunks make up the grid in order, so every grid
    coordinate is in exactly one chunk; for any other [num_chunks] with
    which the scan completes, [num_chunks] is negative, no chunk is made
    and the result is empty. *)
Theorem scan_no_duplicates
    (var : list Z → option Q)
    (read_region : coord → Z * Z → Z → option tile)
    (patch_size reduction w h num_chunks : Z) (picks : list nat)
    (patches : list coord) :
  scan var read_region patch_size reduction w h num_chunks picks
  = Some patches →
  NoDup patches ∧
  ∃ data chunks,
    Scheduler.start_loc_data w h patch_size = Some data ∧
    Scheduler.start_loc_list data num_chunks = Some chunks ∧
    NoDup data ∧
    (∀ (i j : nat) c1 c2, i ≠ j → chunks !! i = Some c1 → chunks !! j = Some c2 →
       ∀ p, p ∈ c1 → p ∉ c2) ∧
    (0 < num_chunks →
     concat chunks = data ∧
     ∀ p, p ∈ data → ∃ i c, chunks !! i = Some c ∧ p ∈ c ∧
       ∀ j c', chunks !! j = Some c' → p ∈ c' → j = i) ∧
    (num_chunks ≤ 0 → num_chunks < 0 ∧ chunks = [] ∧ patches = []) ∧
    patches ≡ₚ filter (λ loc, Obs.foreground var read_region patch_size
                                reduction loc = true) (concat chunks).
Proof.
  intros (data & chunks & Hd & Hch & Hp)%scan_inv.
  pose proof (start_loc_data_NoDup _ _ _ _ Hd) as Hnd.
  assert (NoDup (concat chunks)) as Hndc.
  { destruct (start_loc_list_inv _ _ _ Hch) as [[_ ->]|[_ ->]];
      [constructor|done]. }
  pose proof (concat_NoDup_disjoint chunks Hndc) as Hdisj.
  split.
  - rewrite Hp. by apply NoDup_filter.
  - exists data, chunks. do 4 (split; [done|]). split; [|split; [|done]].
    + intros Hnc. destruct (start_loc_list_inv _ _ _ Hch) as [[? _]|[_ Hcat]];
        [lia|]. split; [done|].
      intros p Hin. rewrite <- Hcat in Hin.
      apply elem_of_concat in Hin as (c & Hc & Hpc).
      apply list_elem_of_lookup in Hc as [i Hi].
      exists i, c. do 2 (split; [done|]).
      intros j c' Hj Hpc'. destruct (decide (j = i)) as [|Hne]; [done|].
      exfalso. by apply (Hdisj j i c' c Hne Hj Hi p).
    + intros Hnc. destruct (start_loc_list_inv _ _ _ Hch) as [[? ->]|[? _]];
        [|lia]. do 2 (split; [done|]).
      simpl in Hp. rewrite filter_nil in Hp. by apply Permutation_nil_r in Hp.
Qed.

Lemma scan_no_duplicates_witness :
  NoDup [(328, 164); (492, 164); (328, 0); (492, 0)].
Proof.
  apply (scan_no_duplicates exact_var demo_slide 164 4 656 328 2 [1%nat]
           [(328, 164); (492, 164); (328, 0); (492, 0)]).
  reflexivity.
Defined.

(** The chunks of a completing scan need not cover the grid: with
    [num_chunks = -2] the scan of the demo slide completes, but it makes
    no chunk and returns no coordinate, although the grid has eight
    coordinates, four of which are foreground. *)
Lemma scan_completes_without_covering_grid :
  scan exact_var demo_slide 164 4 656 328 (-2) [] = Some [] ∧
  Scheduler.start_loc_data 656 328 164
  = Some [(0, 0); (164, 0); (328, 0); (492, 0);
          (0, 164); (164, 164); (328, 164); (492, 164)] ∧
  Scheduler.start_loc_list [(0, 0); (164, 0); (328, 0); (492, 0);
                            (0, 164); (164, 164); (328, 164); (492, 164)] (-2)
  = Some [] ∧
  filter (λ loc, Obs.foreground exact_var demo_slide 164 4 loc = true)
    [(0, 0); (164, 0); (328, 0); (492, 0);
     (0, 164); (164, 164); (328, 164); (492, 164)]
  = [(328, 0); (492, 0); (328, 164); (492, 164)].
Proof. repeat split; reflexivity. Qed.


(** * Further properties of the scan *)

Section ScanMore.

Variable var : list Z → option Q.
Variable read_region : coord → Z * Z → Z → option tile.
Variables patch_size reduction : Z.

Local Abbreviation region_at := (Obs.region_at read_region patch_size reduction).
Local Abbreviation foreground := (Obs.foreground var read_region patch_size reduction).
Local Abbreviation worker := (process_patch var read_region patch_size reduction).
Local Abbreviation futures_of := (client_map var read_region patch_size reduction).
Local Abbreviation run := (scan var read_region patch_size reduction).

Lemma regions_exist (locs : list coord) :
  (∀ loc, loc ∈ locs → is_Some (region_at loc)) →
  ∃ regions, Forall2 (λ loc region, region_at loc = Some region) locs regions.
Proof.
  induction locs as [|loc locs IH]; intros Hall.
  - exists []. constructor.
  - destruct (Hall loc) as [region Hr]; [left|].
    destruct IH as [regions HF].
    { intros loc' Hin. apply Hall. by right. }
    exists (region :: regions). by constructor.
Qed.

(** A worker whose reads all succeed returns. *)
Lemma process_patch_Some (locs : list coord) :
  reduction ≠ 0 → (∀ loc, loc ∈ locs → is_Some (region_at loc)) →
  worker locs = Some (filter (λ loc, foreground loc = true) locs).
Proof.
  intros Hred [regions HF]%regions_exist.
  unfold process_patch, process_patch_logged.
  by rewrite (process_loop_Some _ _ _ _ _ regions [] [] Hred HF).
Qed.

(** A worker one of whose reads fails raises. *)
Lemma process_patch_None (locs : list coord) (loc : coord) :
  loc ∈ locs → region_at loc = None → worker locs = None.
Proof.
  intros Hin Hnone.
  destruct (worker locs) as [res|] eqn:Hw; [|done]. exfalso.
  unfold process_patch, process_patch_logged in Hw.
  destruct (process_loop var read_region patch_size reduction locs [] [])
    as [[res' log]|] eqn:Hl; [|done].
  apply process_loop_inv in Hl as (regions & HF & _).
  apply list_elem_of_lookup in Hin as [i Hi].
  destruct (Forall2_lookup_l _ _ _ _ _ HF Hi) as (region & _ & Hr).
  congruence.
Qed.

Lemma compile_results_nil picks : Aggregator.compile_results [] picks = Some [].
Proof. by destruct picks. Qed.

Lemma elem_of_client_map_None (chunks : list (list coord)) chunk :
  chunk ∈ chunks → worker chunk = None → None ∈ futures_of chunks.
Proof.
  intros Hin Hw. unfold client_map. rewrite <- Hw.
  by apply list_elem_of_fmap_2.
Qed.

Lemma client_map_all_Some (chunks : list (list coord)) :
  (∀ chunk, chunk ∈ chunks → is_Some (worker chunk)) →
  None ∉ futures_of chunks.
Proof.
  intros Hall (chunk & Hw & Hin)%list_elem_of_fmap.
  destruct (Hall chunk Hin) as [res Hres]. congruence.
Qed.

End ScanMore.

(** X1. For [1 ≤ num_chunks ≤ len(start_loc_data)] the chunking
    comprehension returns at least [num_chunks] chunks, and exactly
    [num_chunks] when and only when [num_chunks] divides the length;
    every chunk but the last holds [len // num_chunks] elements and the
    last one holds between one and that many. *)
Theorem start_loc_list_chunk_shape {A : Type} (l : list A) (num_chunks : Z) :
  1 ≤ num_chunks ≤ Py.len l →
  ∃ chunks, Scheduler.start_loc_list l num_chunks = Some chunks ∧
    num_chunks ≤ Py.len chunks ∧
    (Py.len chunks = num_chunks ↔ (num_chunks | Py.len l)) ∧
    ∀ (k : nat) (c : list A), chunks !! k = Some c →
      1 ≤ Py.len c ≤ Py.len l / num_chunks ∧
      ((S k < length chunks)%nat → Py.len c = Py.len l / num_chunks).
Proof.
  intros Hnc. destruct (start_loc_list_total l num_chunks Hnc) as [Hcs Hs].
  destruct (chunk_count_exact l num_chunks Hnc) as [Hge Hexact].
  set (cs := Py.len l / num_chunks) in *.
  set (chunks := slices (Z.to_nat cs) l (chunk_count l cs)) in *.
  assert (length chunks = chunk_count l cs) as Hlen by apply length_slices.
  assert (Py.len chunks = Z.of_nat (chunk_count l cs)) as HLen
    by (unfold Py.len; by rewrite Hlen).
  exists chunks. split; [exact Hs|]. rewrite HLen. do 2 (split; [done|]).
  intros k c Hk. split.
  - apply list_elem_of_lookup_2, chunk_lengths in Hk; [|lia].
    unfold Py.len. lia.
  - intros Hlt. rewrite Hlen in Hlt.
    apply chunk_length_full in Hk; [|lia..].
    unfold Py.len. lia.
Qed.

Lemma start_loc_list_chunk_shape_witness :
  ∃ chunks, Scheduler.start_loc_list [0; 1; 2; 3; 4; 5; 6; 7; 8; 9] 3
            = Some chunks ∧
    3 ≤ Py.len chunks ∧
    (Py.len chunks = 3 ↔ (3 | Py.len [0; 1; 2; 3; 4; 5; 6; 7; 8; 9])) ∧
    ∀ (k : nat) (c : list Z), chunks !! k = Some c →
      1 ≤ Py.len c ≤ Py.len [0; 1; 2; 3; 4; 5; 6; 7; 8; 9] / 3 ∧
      ((S k < length chunks)%nat →
       Py.len c = Py.len [0; 1; 2; 3; 4; 5; 6; 7; 8; 9] / 3).
Proof.
  apply (start_loc_list_chunk_shape [0; 1; 2; 3; 4; 5; 6; 7; 8; 9] 3).
  unfold Py.len. simpl. lia.
Defined.

(** X2. With a negative [num_chunks] and a non-empty grid the scan does
    not raise: it makes no chunk, reads no region and returns the empty
    list, whatever the slide shows. *)
Theorem scan_negative_num_chunks
    (var : list Z → option Q)
    (read_region : coord → Z * Z → Z → option tile)
    (patch_size reduction w h num_chunks : Z) (picks : list nat)
    (data : list coord) :
  Scheduler.start_loc_data w h patch_size = Some data → data ≠ [] →
  num_chunks < 0 →
  Scheduler.start_loc_list data num_chunks = Some [] ∧
  scan var read_region patch_size reduction w h num_chunks picks = Some [].
Proof.
  intros Hd Hne Hnc.
  assert (Scheduler.start_loc_list data num_chunks = Some []) as Hs.
  { apply (start_loc_list_neg data num_chunks (Py.len data / num_chunks)).
    - unfold Scheduler.chunk_size. apply floordiv_Some. lia.
    - assert (0 < Py.len data) as Hlen
        by (unfold Py.len; destruct data; [done|simpl; lia]).
      pose proof (Z.div_mod (Py.len data) num_chunks ltac:(lia)).
      pose proof (Z.mod_neg_bound (Py.len data) num_chunks Hnc). nia. }
  split; [done|]. unfold scan. rewrite Hd. simpl. rewrite Hs. simpl.
  apply compile_results_nil.
Qed.

Lemma scan_negative_num_chunks_witness :
  Scheduler.start_loc_list [(0, 0); (164, 0); (0, 164); (164, 164)] (-2)
  = Some [] ∧
  scan exact_var demo_slide 164 4 328 328 (-2) [1%nat] = Some [].
Proof.
  apply (scan_negative_num_chunks exact_var demo_slide 164 4 328 328 (-2) [1%nat]
           [(0, 0); (164, 0); (0, 164); (164, 164)]).
  - reflexivity.
  - done.
  - lia.
Defined.

(** X3. When [reduction] is not zero, the grid holds at least
    [num_chunks ≥ 1] tiles and every read succeeds, the scan returns,
    and it returns exactly the grid coordinates whose region classifies
    as foreground, each once. *)
Theorem scan_returns_foreground_tiles
    (var : list Z → option Q)
    (read_region : coord → Z * Z → Z → option tile)
    (patch_size reduction w h num_chunks : Z) (picks : list nat)
    (data : list coord) :
  reduction ≠ 0 →
  Scheduler.start_loc_data w h patch_size = Some data →
  1 ≤ num_chunks ≤ Py.len data →
  (∀ loc, loc ∈ data →
     is_Some (Obs.region_at read_region patch_size reduction loc)) →
  ∃ patches,
    scan var read_region patch_size reduction w h num_chunks picks = Some patches ∧
    patches ≡ₚ filter (λ loc, Obs.foreground var read_region patch_size reduction
                                loc = true) data ∧
    NoDup patches ∧
    ∀ loc, loc ∈ patches ↔
           loc ∈ data ∧
           Obs.foreground var read_region patch_size reduction loc = true.
Proof.
  intros Hred Hd Hnc Hreads.
  destruct (start_loc_list_total data num_chunks Hnc) as [Hcs Hs].
  set (chunks := slices _ data _) in Hs.
  assert (concat chunks = data) as Hcat by (apply concat_chunks; lia).
  assert (None ∉ client_map var read_region patch_size reduction chunks) as Hnin.
  { apply client_map_all_Some. intros chunk Hin.
    rewrite process_patch_Some; [done|done|].
    intros loc Hloc. apply Hreads. rewrite <- Hcat.
    apply elem_of_concat. by exists chunk. }
  destruct (aggregate_chunks var read_region patch_size reduction chunks picks)
    as [[Hin _]|(patches & Hc & Hp)]; [done|].
  rewrite Hcat in Hp. exists patches. split.
  - unfold scan. rewrite Hd. simpl. rewrite Hs. done.
  - split; [done|]. split.
    + rewrite Hp. apply NoDup_filter. by eapply start_loc_data_NoDup.
    + intros loc. rewrite Hp, list_elem_of_filter. tauto.
Qed.

Lemma scan_returns_foreground_tiles_witness :
  ∃ patches,
    scan exact_var demo_slide 164 4 656 328 2 [1%nat] = Some patches ∧
    patches ≡ₚ filter (λ loc, Obs.foreground exact_var demo_slide 164 4 loc = true)
                 [(0, 0); (164, 0); (328, 0); (492, 0);
                  (0, 164); (164, 164); (328, 164); (492, 164)] ∧
    NoDup patches ∧
    ∀ loc, loc ∈ patches ↔
           loc ∈ [(0, 0); (164, 0); (328, 0); (492, 0);
                  (0, 164); (164, 164); (328, 164); (492, 164)] ∧
           Obs.foreground exact_var demo_slide 164 4 loc = true.
Proof.
  apply (scan_returns_foreground_tiles exact_var demo_slide 164 4 656 328 2 [1%nat]).
  - lia.
  - reflexivity.
  - unfold Py.len. simpl. lia.
  - intros loc _. unfold Obs.region_at, demo_slide. by case_decide.
Defined.

(** X4. When the decoder raises for one coordinate of the grid (and
    [num_chunks] is positive), the scan raises, whatever the order in
    which the tasks complete: the coordinates found by the other workers
    are not returned. *)
Theorem scan_raises_on_failed_read
    (var : list Z → option Q)
    (read_region : coord → Z * Z → Z → option tile)
    (patch_size reduction w h num_chunks : Z) (picks : list nat)
    (data : list coord) (loc : coord) :
  Scheduler.start_loc_data w h patch_size = Some data →
  0 < num_chunks → loc ∈ data →
  Obs.region_at read_region patch_size reduction loc = None →
  scan var read_region patch_size reduction w h num_chunks picks = None.
Proof.
  intros Hd Hnc Hin Hnone. unfold scan. rewrite Hd. simpl.
  destruct (Scheduler.start_loc_list data num_chunks) as [chunks|] eqn:Hs;
    [|done].
  simpl. destruct (start_loc_list_inv _ _ _ Hs) as [[? _]|[_ Hcat]]; [lia|].
  rewrite <- Hcat in Hin. apply elem_of_concat in Hin as (chunk & Hchunk & Hloc).
  pose proof (process_patch_None var read_region patch_size reduction chunk loc
                Hloc Hnone) as Hw.
  pose proof (elem_of_client_map_None var read_region patch_size reduction chunks
                chunk Hchunk Hw) as Hfut.
  destruct (compile_results_spec
              (client_map var read_region patch_size reduction chunks) picks)
    as [[_ ?]|[? _]]; done.
Qed.

Lemma scan_raises_on_failed_read_witness :
  scan exact_var torn_slide 164 4 656 328 2 [1%nat] = None.
Proof.
  apply (scan_raises_on_failed_read exact_var torn_slide 164 4 656 328 2 [1%nat]
           [(0, 0); (164, 0); (328, 0); (492, 0);
            (0, 164); (164, 164); (328, 164); (492, 164)] (492, 164)).
  - reflexivity.
  - lia.
  - repeat constructor.
  - reflexivity.
Defined.

(** X5. The scan raises when [patch_size] is zero, when [num_chunks] is
    zero, and when the grid holds fewer coordinates than [num_chunks]
    (in particular when the grid is empty). *)
Theorem scan_raises_without_chunks
    (var : list Z → option Q)
    (read_region : coord → Z * Z → Z → option tile)
    (patch_size reduction w h num_chunks : Z) (picks : list nat) :
  scan var read_region 0 reduction w h num_chunks picks = None ∧
  scan var read_region patch_size reduction w h 0 picks = None ∧
  (∀ data, Scheduler.start_loc_data w h patch_size = Some data →
           Py.len data < num_chunks →
           scan var read_region patch_size reduction w h num_chunks picks = None).
Proof.
  split; [done|]. split.
  - unfold scan.
    by destruct (Scheduler.start_loc_data w h patch_size).
  - intros data Hd Hlt. unfold scan. rewrite Hd. simpl.
    rewrite start_loc_list_zero; [done|].
    unfold Scheduler.chunk_size.
    rewrite floordiv_Some by (unfold Py.len in *; lia).
    f_equal. apply Z.div_small. unfold Py.len in *. lia.
Qed.

Lemma scan_raises_without_chunks_witness :
  scan exact_var demo_slide 164 4 500 500 32 [] = None.
Proof.
  destruct (scan_raises_without_chunks exact_var demo_slide 164 4 500 500 32 [])
    as (_ & _ & Hfew).
  eapply Hfew; [reflexivity|]. unfold Py.len. simpl. lia.
Defined.

(** * Further properties of the grid and the mask *)

Lemma length_grid_of (xs ys : list Z) :
  length (grid_of xs ys) = (length ys * length xs)%nat.
Proof.
  unfold grid_of, coord. induction ys as [|y ys IH]; [done|].
  rewrite bind_cons, length_app, IH. simpl. f_equal.
  clear. induction xs as [|x xs IHx]; [done|].
  rewrite bind_cons. simpl. by rewrite IHx.
Qed.

Lemma length_range (start stop step : Z) (l : list Z) :
  Py.range start stop step = Some l →
  Z.of_nat (length l) = Py.range_len start stop step.
Proof.
  intros [_ ->]%range_inv. rewrite length_fmap, length_seqZ.
  pose proof (range_len_nonneg start stop step). lia.
Qed.

(** The number of start positions on an axis of length [w]. *)
Lemma range_len_ceiling (w patch_size : Z) :
  0 < patch_size →
  Py.range_len 0 w patch_size = Z.max 0 ((w + patch_size - 1) / patch_size).
Proof.
  intros Hps. unfold Py.range_len. rewrite decide_True by done.
  destruct (decide (0 < w)) as [Hw|Hw].
  - rewrite Z.sub_0_r.
    replace (w + patch_size - 1) with (w - 1 + 1 * patch_size) by lia.
    rewrite Z.div_add by lia.
    assert (0 ≤ (w - 1) / patch_size) by (apply Z.div_pos; lia). lia.
  - assert ((w + patch_size - 1) / patch_size ≤ 0); [|lia].
    assert ((w + patch_size - 1) / patch_size < 1); [|lia].
    apply Z.div_lt_upper_bound; lia.
Qed.

(** X6. For a positive [patch_size] the grid holds
    [ceil(w / patch_size) * ceil(h / patch_size)] coordinates, and the
    tiles of side [patch_size] that start at them partition the image:
    every pixel of the [w] by [h] image lies in the tile of exactly one
    grid coordinate. *)
Theorem grid_tiles_partition_image (w h patch_size : Z) :
  0 < patch_size →
  ∃ data, Scheduler.start_loc_data w h patch_size = Some data ∧
    Py.len data = Z.max 0 ((w + patch_size - 1) / patch_size)
                  * Z.max 0 ((h + patch_size - 1) / patch_size) ∧
    ∀ px py, 0 ≤ px < w → 0 ≤ py < h →
      ∀ x y, ((x, y) ∈ data ∧
              x ≤ px < x + patch_size ∧ y ≤ py < y + patch_size) ↔
             (x = patch_size * (px / patch_size) ∧
              y = patch_size * (py / patch_size)).
Proof.
  intros Hps. unfold Scheduler.start_loc_data.
  destruct (Py.range 0 h patch_size) as [ys|] eqn:Hys.
  2:{ unfold Py.range in Hys. by rewrite decide_False in Hys by lia. }
  destruct (Py.range 0 w patch_size) as [xs|] eqn:Hxs.
  2:{ unfold Py.range in Hxs. by rewrite decide_False in Hxs by lia. }
  simpl. eexists. split; [done|]. fold (grid_of xs ys). split.
  - unfold Py.len. rewrite length_grid_of, Nat2Z.inj_mul.
    rewrite (length_range _ _ _ _ Hxs), (length_range _ _ _ _ Hys).
    rewrite !range_len_ceiling by done. lia.
  - intros px py Hpx Hpy x y. rewrite elem_of_grid_of.
    rewrite (elem_of_range_pos w patch_size xs x Hps Hxs),
      (elem_of_range_pos h patch_size ys y Hps Hys).
    pose proof (Z.div_mod px patch_size ltac:(lia)) as Hdx.
    pose proof (Z.mod_pos_bound px patch_size Hps) as Hmx.
    pose proof (Z.div_mod py patch_size ltac:(lia)) as Hdy.
    pose proof (Z.mod_pos_bound py patch_size Hps) as Hmy.
    split.
    + intros ([[Hx0 [kx ->]] [Hy0 [ky ->]]] & Hxp & Hyp).
      assert (kx = px / patch_size) as -> by nia.
      assert (ky = py / patch_size) as -> by nia.
      lia.
    + intros [-> ->].
      assert (0 ≤ px / patch_size) by (apply Z.div_pos; lia).
      assert (0 ≤ py / patch_size) by (apply Z.div_pos; lia).
      repeat split; try nia.
      * exists (px / patch_size). lia.
      * exists (py / patch_size). lia.
Qed.

Lemma grid_tiles_partition_image_witness :
  ∃ data, Scheduler.start_loc_data 1000 1000 164 = Some data ∧
    Py.len data = Z.max 0 ((1000 + 164 - 1) / 164)
                  * Z.max 0 ((1000 + 164 - 1) / 164) ∧
    ∀ px py, 0 ≤ px < 1000 → 0 ≤ py < 1000 →
      ∀ x y, ((x, y) ∈ data ∧ x ≤ px < x + 164 ∧ y ≤ py < y + 164) ↔
             (x = 164 * (px / 164) ∧ y = 164 * (py / 164)).
Proof. apply (grid_tiles_partition_image 1000 1000 164). lia. Defined.

Section MaskMore.

Import Mask.

(** Two arrays of the same shape with the same cells are equal. *)
Lemma ndarray_ext (m1 m2 : ndarray) (r c : Z) :
  mask_wf m1 r c → mask_wf m2 r c →
  (∀ i j : nat, (i < Z.to_nat r)%nat → (j < Z.to_nat c)%nat →
                getitem m1 i j = getitem m2 i j) →
  m1 = m2.
Proof.
  destruct m1 as [sh1 rows1], m2 as [sh2 rows2].
  intros (Hs1 & _ & _ & Hl1 & Hr1) (Hs2 & _ & _ & Hl2 & Hr2) Hget.
  simpl in *. subst sh1 sh2. f_equal.
  apply list_eq. intros i.
  destruct (decide (i < Z.to_nat r)%nat) as [Hi|Hi].
  - destruct (lookup_lt_is_Some_2 rows1 i ltac:(lia)) as [row1 Hrow1],
      (lookup_lt_is_Some_2 rows2 i ltac:(lia)) as [row2 Hrow2].
    rewrite Hrow1, Hrow2. f_equal.
    rewrite Forall_forall in Hr1, Hr2.
    pose proof (Hr1 _ (list_elem_of_lookup_2 _ _ _ Hrow1)) as Hlen1.
    pose proof (Hr2 _ (list_elem_of_lookup_2 _ _ _ Hrow2)) as Hlen2.
    apply list_eq. intros j.
    destruct (decide (j < Z.to_nat c)%nat) as [Hj|Hj].
    + specialize (Hget i j Hi Hj). unfold getitem in Hget. simpl in Hget.
      by rewrite Hrow1, Hrow2 in Hget.
    + rewrite !lookup_ge_None_2 by lia. done.
  - rewrite !lookup_ge_None_2 by lia. done.
Qed.

(** What the mask cell returns, cell by cell. *)
Lemma mask_build_cells (w h patch_size reduction : Z) (patches : list coord) :
  0 < patch_size → 0 < reduction → 0 ≤ w → 0 ≤ h →
  Forall (λ p : coord, 0 ≤ p.1 ∧ 0 ≤ p.2) patches →
  ∃ mask, build w h patch_size reduction patches = Some mask ∧
    mask_wf mask (h / patch_size) (w / patch_size) ∧
    ∀ i j : nat,
      (i < Z.to_nat (h / patch_size))%nat →
      (j < Z.to_nat (w / patch_size))%nat →
      getitem mask i j
      = Some (if decide (Exists (λ p, target_cell patch_size reduction p
                                      = (Z.of_nat i, Z.of_nat j)) patches)
              then 1 else 0).
Proof.
  intros Hps Hred Hw Hh Hnn.
  assert (0 ≤ h / patch_size) as Hr by (apply Z.div_pos; lia).
  assert (0 ≤ w / patch_size) as Hc by (apply Z.div_pos; lia).
  destruct (zeros_wf _ _ Hr Hc) as (mask0 & Hz & Hwf0 & Hrows0).
  destruct (mask_loop_spec w h patch_size reduction patches mask0)
    as (mask & Hloop & Hwf & Hget); [done..|].
  exists mask. unfold build. rewrite !floordiv_Some by lia. simpl.
  rewrite Hz. simpl. do 2 (split; [done|]).
  intros i j Hi Hj. rewrite Hget by lia.
  case_decide; [done|]. unfold getitem. rewrite Hrows0.
  by apply getitem_zeros.
Qed.

End MaskMore.

(** X7. The mask depends only on which coordinates are accepted: two
    lists with the same elements, in any order and with any repetition,
    give the same mask. *)
Theorem mask_ignores_order_and_repeats
    (w h patch_size reduction : Z) (patches1 patches2 : list coord) :
  0 < patch_size → 0 < reduction → 0 ≤ w → 0 ≤ h →
  Forall (λ p : coord, 0 ≤ p.1 ∧ 0 ≤ p.2) patches1 →
  (∀ p, p ∈ patches1 ↔ p ∈ patches2) →
  is_Some (Mask.build w h patch_size reduction patches1) ∧
  Mask.build w h patch_size reduction patches1
  = Mask.build w h patch_size reduction patches2.
Proof.
  intros Hps Hred Hw Hh Hnn1 Hsame.
  assert (Forall (λ p : coord, 0 ≤ p.1 ∧ 0 ≤ p.2) patches2) as Hnn2.
  { rewrite Forall_forall in *. intros p Hp. apply Hnn1. by apply Hsame. }
  destruct (mask_build_cells w h patch_size reduction patches1)
    as (m1 & Hb1 & Hwf1 & Hget1); [done..|].
  destruct (mask_build_cells w h patch_size reduction patches2)
    as (m2 & Hb2 & Hwf2 & Hget2); [done..|].
  rewrite Hb1, Hb2. split; [done|]. f_equal.
  apply (ndarray_ext m1 m2 _ _ Hwf1 Hwf2). intros i j Hi Hj.
  rewrite Hget1, Hget2 by done. f_equal. apply decide_ext.
  rewrite !Exists_exists. split; intros (p & Hp & Hcell); exists p;
    (split; [by apply Hsame|done]).
Qed.

Lemma mask_ignores_order_and_repeats_witness :
  is_Some (Mask.build 500 500 164 4 [(0, 0); (656, 0); (656, 656)]) ∧
  Mask.build 500 500 164 4 [(0, 0); (656, 0); (656, 656)]
  = Mask.build 500 500 164 4 [(656, 656); (0, 0); (656, 0); (0, 0)].
Proof.
  apply (mask_ignores_order_and_repeats 500 500 164 4
           [(0, 0); (656, 0); (656, 656)]
           [(656, 656); (0, 0); (656, 0); (0, 0)]); [lia..| |].
  - repeat constructor; simpl; lia.
  - intros p. rewrite !elem_of_cons, !elem_of_nil. tauto.
Defined.

(** X8. The mask is coarser than the tile grid by [reduction] in each
    direction: when the accepted coordinates are grid tiles
    [(a * patch_size, b * patch_size)], the cell [(i, j)] is 1 exactly
    when some accepted tile has [b // reduction = i] and
    [a // reduction = j], so each cell stands for a block of
    [reduction] by [reduction] tiles. *)
Theorem mask_cell_is_block_of_tiles
    (w h patch_size reduction : Z) (tiles : list (Z * Z)) :
  0 < patch_size → 0 < reduction → 0 ≤ w → 0 ≤ h →
  Forall (λ t : Z * Z, 0 ≤ t.1 ∧ 0 ≤ t.2) tiles →
  ∃ mask,
    Mask.build w h patch_size reduction
      ((λ t : Z * Z, (t.1 * patch_size, t.2 * patch_size)) <$> tiles)
    = Some mask ∧
    ∀ i j : nat, Z.of_nat i < h / patch_size → Z.of_nat j < w / patch_size →
      (Mask.getitem mask i j = Some 1 ↔
       ∃ t, t ∈ tiles ∧ t.2 / reduction = Z.of_nat i ∧
            t.1 / reduction = Z.of_nat j) ∧
      (Mask.getitem mask i j = Some 1 ∨ Mask.getitem mask i j = Some 0).
Proof.
  intros Hps Hred Hw Hh Hnn.
  destruct (mask_build_cells w h patch_size reduction
              ((λ t : Z * Z, (t.1 * patch_size, t.2 * patch_size)) <$> tiles))
    as (mask & Hb & _ & Hget); [done..| |].
  { apply Forall_fmap. eapply Forall_impl; [exact Hnn|].
    intros [a b] [Ha Hb]. simpl in *. nia. }
  exists mask. split; [done|]. intros i j Hi Hj.
  rewrite Hget by lia.
  assert (∀ t : Z * Z,
            target_cell patch_size reduction
              (t.1 * patch_size, t.2 * patch_size)
            = (t.2 / reduction, t.1 / reduction)) as Hcell.
  { intros [a b]. unfold target_cell. simpl.
    rewrite (Z.mul_comm patch_size reduction).
    by rewrite !Z.div_mul_cancel_r by lia. }
  split.
  - case_decide as Hex.
    + split; [|done]. intros _.
      apply Exists_fmap, Exists_exists in Hex as (t & Ht & Heq).
      simpl in Heq. rewrite Hcell in Heq. injection Heq as ? ?.
      by exists t.
    + split; [done|]. intros (t & Ht & Hrow & Hcol). exfalso. apply Hex.
      apply Exists_fmap, Exists_exists. exists t. split; [done|].
      simpl. rewrite Hcell. by rewrite Hrow, Hcol.
  - case_decide; [by left|by right].
Qed.

Lemma mask_cell_is_block_of_tiles_witness :
  ∃ mask,
    Mask.build 1000 1000 164 4
      ((λ t : Z * Z, (t.1 * 164, t.2 * 164)) <$> [(0, 0); (5, 1); (7, 9)])
    = Some mask ∧
    Mask.rows mask =
      [[1; 1; 0; 0; 0; 0]; [0; 0; 0; 0; 0; 0]; [0; 1; 0; 0; 0; 0];
       [0; 0; 0; 0; 0; 0]; [0; 0; 0; 0; 0; 0]; [0; 0; 0; 0; 0; 0]].
Proof.
  destruct (mask_cell_is_block_of_tiles 1000 1000 164 4
              [(0, 0); (5, 1); (7, 9)]) as (mask & Hb & _); [lia..| |].
  - repeat constructor; simpl; lia.
  - exists mask. split; [exact Hb|].
    vm_compute in Hb. by injection Hb as <-.
Defined.

(** * The threaded loader *)

Lemma range_step_one (n : Z) : Py.range 0 n 1 = Some (seqZ 0 n).
Proof.
  unfold Py.range, Py.range_len. rewrite decide_False by lia. f_equal.
  rewrite decide_True by lia.
  transitivity (id <$> seqZ 0 (if decide (0 < n) then (n - 0 - 1) / 1 + 1 else 0)).
  - apply list_fmap_ext. intros i k _. simpl. lia.
  - rewrite list_fmap_id. case_decide.
    + f_equal. rewrite Z.div_1_r. lia.
    + by rewrite !seqZ_nil by lia.
Qed.

(** X9. With [num_threads ≥ 1] every thread asks for a strip of
    [width // num_threads] columns, and the strips of different threads
    do not overlap; but thread 0 asks for the second strip of the slide,
    thread 1 for the first, and every later thread for a strip left of
    column 0. A column of the slide is asked for by some thread only if
    it lies in the first two strips. *)
Theorem loader_threads_cover_two_strips (width height num_threads lvl : Z) :
  1 ≤ num_threads → 0 ≤ width →
  ∃ reqs,
    Loader.requests width height num_threads lvl = Some (Some <$> reqs) ∧
    reqs = (λ i, {| Loader.location := (width / num_threads * (1 - i), 0);
                    Loader.level := lvl;
                    Loader.region_size := (width / num_threads, height) |})
           <$> seqZ 0 num_threads ∧
    (∀ px, 0 ≤ px →
       (∃ r, r ∈ reqs ∧ covers r px) ↔
       (width / num_threads ≤ px < 2 * (width / num_threads)) ∨
       (2 ≤ num_threads ∧ px < width / num_threads)) ∧
    (∀ (i j : nat) r1 r2 px, i ≠ j →
       reqs !! i = Some r1 → reqs !! j = Some r2 →
       covers r1 px → ¬ covers r2 px).
Proof.
  intros Hn Hw.
  assert (0 ≤ width / num_threads) as Hs by (apply Z.div_pos; lia).
  set (s := width / num_threads) in *.
  eexists. split; [|split; [reflexivity|split]].
  - unfold Loader.requests. rewrite range_step_one. simpl. f_equal.
    rewrite <- list_fmap_compose. apply list_fmap_ext. intros k i _. simpl.
    unfold Loader.run. rewrite !floordiv_Some by lia. done.
  - intros px Hpx. split.
    + intros (r & (i & -> & [Hi0 Hi]%elem_of_seqZ)%list_elem_of_fmap & Hc).
      unfold covers in Hc. simpl in Hc.
      assert (i = 0 ∨ i = 1 ∨ 2 ≤ i) as [->|[->|Hi2]] by lia.
      * left. lia.
      * right. lia.
      * exfalso. nia.
    + intros [Hc|[Hn2 Hc]].
      * eexists. split.
        -- apply list_elem_of_fmap. exists 0. split; [done|].
           apply elem_of_seqZ. lia.
        -- unfold covers. simpl. lia.
      * eexists. split.
        -- apply list_elem_of_fmap. exists 1. split; [done|].
           apply elem_of_seqZ. lia.
        -- unfold covers. simpl. lia.
  - intros i j r1 r2 px Hij H1 H2.
    rewrite list_lookup_fmap in H1, H2.
    destruct (seqZ 0 num_threads !! i) as [a|] eqn:Ha; [|done].
    destruct (seqZ 0 num_threads !! j) as [b|] eqn:Hb; [|done].
    apply lookup_seqZ in Ha as [-> _]. apply lookup_seqZ in Hb as [-> _].
    injection H1 as <-. injection H2 as <-.
    unfold covers. simpl. intros Hc1 Hc2. nia.
Qed.

Lemma loader_threads_cover_two_strips_witness :
  ∃ reqs,
    Loader.requests 1000 500 4 0 = Some (Some <$> reqs) ∧
    reqs = (λ i, {| Loader.location := (1000 / 4 * (1 - i), 0);
                    Loader.level := 0;
                    Loader.region_size := (1000 / 4, 500) |})
           <$> seqZ 0 4 ∧
    (∀ px, 0 ≤ px →
       (∃ r, r ∈ reqs ∧ covers r px) ↔
       (1000 / 4 ≤ px < 2 * (1000 / 4)) ∨ (2 ≤ 4 ∧ px < 1000 / 4)) ∧
    (∀ (i j : nat) r1 r2 px, i ≠ j →
       reqs !! i = Some r1 → reqs !! j = Some r2 →
       covers r1 px → ¬ covers r2 px).
Proof. apply (loader_threads_cover_two_strips 1000 500 4 0); lia. Defined.

(** * The timing cells *)

Section TimingFacts.

Context {T : Type}.
Variable zero : T.
Variable time_loading_at_resolution : Z → T.





End TimingFacts.


(** * The toy task graph *)

Section ToyFacts.

Import Toy.

Lemma getitem_middle {A : Type} (pre post : list A) (x : A) :
  PyList.getitem (pre ++ x :: post) (Py.len pre) = Some x.
Proof.
  unfold PyList.getitem, PyList.index, Py.len.
  rewrite length_app. simpl. rewrite decide_True by lia. simpl.
  rewrite Nat2Z.id. by rewrite list_lookup_middle.
Qed.

Lemma getitem_end {A : Type} (l : list A) :
  PyList.getitem l (Py.len l) = None.
Proof.
  unfold PyList.getitem, PyList.index, Py.len.
  rewrite decide_False by lia. by rewrite decide_False by lia.
Qed.

Lemma range_len_two (n : nat) :
  Py.range_len 0 (Z.of_nat (S (S n))) 2 = 1 + Py.range_len 0 (Z.of_nat n) 2.
Proof.
  unfold Py.range_len. rewrite !decide_True by lia.
  destruct (decide (0 < Z.of_nat n)) as [Hn|Hn].
  - replace (Z.of_nat (S (S n)) - 0 - 1) with (Z.of_nat n - 0 - 1 + 1 * 2)
      by lia.
    rewrite Z.div_add by lia. lia.
  - replace n with 0%nat by lia. done.
Qed.

Lemma add_pair_middle (pre rest : list delayed) (x y : delayed) :
  add_pair (pre ++ x :: y :: rest) (Py.len pre) = Some (Add x y).
Proof.
  unfold add_pair. rewrite (getitem_middle pre (y :: rest) x). simpl.
  replace (Py.len pre + 1) with (Py.len (pre ++ [x]))
    by (unfold Py.len; rewrite length_app; simpl; lia).
  replace (pre ++ x :: y :: rest) with ((pre ++ [x]) ++ y :: rest)
    by (by rewrite <- app_assoc).
  by rewrite (getitem_middle (pre ++ [x]) rest y).
Qed.

(** A list can be taken apart two elements at a time. *)
Lemma list_pair_ind {A : Type} (P : list A → Prop) :
  P [] → (∀ x, P [x]) → (∀ x y l, P l → P (x :: y :: l)) → ∀ l, P l.
Proof.
  intros Hnil Hone Hstep l.
  assert (P l ∧ ∀ x, P (x :: l)) as [? _]; [|done].
  induction l as [|y l [IH1 IH2]]; [by split|].
  split; [apply IH2|]. intros x. by apply Hstep.
Qed.

(** The indexed loop of the cell pairs the list off, starting anywhere. *)
Lemma pair_up_from (pre rest : list delayed) :
  mapM (add_pair (pre ++ rest))
    ((λ k, Py.len pre + k * 2)
       <$> seqZ 0 (Py.range_len 0 (Py.len rest) 2))
  = pairs rest.
Proof.
  revert pre. induction rest as [|x|x y rest IH] using list_pair_ind;
    intros pre.
  - done.
  - change (Py.range_len 0 (Py.len [x]) 2) with 1.
    change (seqZ 0 1) with [0]. rewrite fmap_cons, fmap_nil.
    cbn [mapM]. unfold add_pair at 1.
    replace (Py.len pre + 0 * 2) with (Py.len pre) by lia.
    rewrite (getitem_middle pre [] x). simpl.
    replace (Py.len pre + 1) with (Py.len (pre ++ [x]))
      by (unfold Py.len; rewrite length_app; simpl; lia).
    by rewrite getitem_end.
  - unfold Py.len at 2. cbn [length]. rewrite range_len_two.
    pose proof (range_len_nonneg 0 (Z.of_nat (length rest)) 2) as Hnn.
    rewrite seqZ_cons by lia. rewrite fmap_cons. cbn [mapM pairs].
    replace (Py.len pre + 0 * 2) with (Py.len pre) by lia.
    rewrite add_pair_middle. simpl.
    replace (Z.pred (1 + Py.range_len 0 (Z.of_nat (length rest)) 2))
      with (Py.range_len 0 (Py.len rest) 2) by (unfold Py.len; lia).
    replace (Z.succ 0) with (1 + 0) by lia.
    rewrite <- (fmap_add_seqZ 1 0), <- list_fmap_compose.
    specialize (IH (pre ++ [x; y])).
    rewrite <- app_assoc in IH. simpl in IH.
    erewrite list_fmap_ext; [rewrite IH|].
    + by destruct (pairs rest).
    + intros i k _. simpl. unfold Py.len. rewrite length_app. simpl. lia.
Qed.

Lemma pair_up_pairs (a : list delayed) : pair_up a = pairs a.
Proof.
  unfold pair_up, Py.range. rewrite decide_False by lia. simpl.
  by rewrite <- (pair_up_from [] a).
Qed.

(** Pairing succeeds on even lengths only, halves the length, keeps the
    value and adds one addition per pair. *)
Lemma pairs_Some (a b : list delayed) :
  pairs a = Some b →
  length a = (2 * length b)%nat ∧ total b = total a ∧
  pending b = (pending a + length b)%nat ∧
  ∀ d, Forall (λ t, depth t = d) a → Forall (λ t, depth t = S d) b.
Proof.
  revert b. induction a as [|x|x y a IH] using list_pair_ind; intros b.
  - intros [= <-]. repeat split; done.
  - done.
  - cbn [pairs]. destruct (pairs a) as [b'|]; [|done]. intros [= <-].
    destruct (IH b' eq_refl) as (Hlen & Htot & Hpend & Hdepth).
    unfold total, pending in *. repeat split.
    + simpl. lia.
    + rewrite !fmap_cons. unfold zsum in *. cbn [foldr value].
      rewrite Htot. lia.
    + rewrite !fmap_cons. cbn [foldr additions length].
      rewrite Hpend. lia.
    + intros d Hall. apply Forall_cons in Hall as [Hx Hall].
      apply Forall_cons in Hall as [Hy Hall].
      constructor; [|by apply Hdepth].
      simpl. rewrite Hx, Hy. lia.
Qed.

Lemma pairs_even (a : list delayed) (m : nat) :
  length a = (2 * m)%nat → is_Some (pairs a).
Proof.
  revert m. induction a as [|x|x y a IH] using list_pair_ind; intros m Hlen.
  - done.
  - simpl in Hlen. lia.
  - cbn [pairs]. destruct (IH (m - 1)%nat) as [b ->]; [simpl in Hlen; lia|].
    done.
Qed.

(** A list of [2 ^ k] graphs of one depth reduces to one graph. *)
Lemma reduce_loop_pow2 (k fuel : nat) (a : list delayed) (d : nat) :
  length a = (2 ^ k)%nat → (k ≤ fuel)%nat → Forall (λ t, depth t = d) a →
  ∃ r, reduce_loop fuel a = Done [r] ∧ value r = total a ∧
       depth r = (d + k)%nat ∧
       additions r = (pending a + 2 ^ k - 1)%nat.
Proof.
  revert fuel a d. induction k as [|k IH]; intros fuel a d Hlen Hfuel Hd.
  - destruct a as [|r [|??]]; try done. exists r.
    apply Forall_cons in Hd as [Hd _].
    split; [by destruct fuel|].
    unfold total, pending, zsum. rewrite !fmap_cons, !fmap_nil.
    cbn [foldr]. change (2 ^ 0)%nat with 1%nat. repeat split; lia.
  - destruct fuel as [|fuel]; [lia|].
    assert (2 ^ k > 0)%nat by (pose proof (Nat.pow_nonzero 2 k); lia).
    cbn [reduce_loop]. rewrite decide_True
      by (unfold Py.len; rewrite Hlen; simpl; lia).
    rewrite pair_up_pairs.
    destruct (pairs_even a (2 ^ k)) as [b Hb]; [rewrite Hlen; simpl; lia|].
    rewrite Hb.
    destruct (pairs_Some a b Hb) as (Hlen' & Htot & Hpend & Hdepth).
    destruct (IH fuel b (S d)) as (r & Hr & Hc & Hdr & Har).
    { rewrite Hlen in Hlen'. simpl in Hlen'. lia. }
    { lia. }
    { by apply Hdepth. }
    exists r. split; [done|]. rewrite Hc, Hdr, Har, Htot, Hpend.
    repeat split; [lia|].
    rewrite Hlen in Hlen'. simpl in *. lia.
Qed.

(** A list whose length is not a power of two makes the loop raise. *)
Lemma reduce_loop_not_pow2 (fuel : nat) (a : list delayed) :
  (length a ≤ fuel)%nat → (∀ k, length a ≠ 2 ^ k)%nat →
  reduce_loop fuel a = IndexError ∨ (reduce_loop fuel a = Done [] ∧ a = []).
Proof.
  revert a. induction fuel as [|fuel IH]; intros a Hfuel Hnp.
  - destruct a; [|simpl in Hfuel; lia]. right. done.
  - destruct (decide (1 < Py.len a)) as [Hlen|Hlen].
    + left. cbn [reduce_loop]. rewrite decide_True by done.
      rewrite pair_up_pairs. destruct (pairs a) as [b|] eqn:Hb; [|done].
      destruct (pairs_Some a b Hb) as (Hlen' & _).
      destruct (IH b) as [Hr|[_ ->]].
      * lia.
      * intros k Hk. apply (Hnp (S k)). rewrite Hlen', Hk. simpl. lia.
      * done.
      * simpl in Hlen'. unfold Py.len in Hlen. lia.
    + unfold Py.len in Hlen. destruct a as [|x [|??]]; [|exfalso|].
      * right. split; [|done]. cbn [reduce_loop]. by rewrite decide_False.
      * by apply (Hnp 0%nat).
      * simpl in Hlen. lia.
Qed.

Lemma total_values (vs : list Z) : total (Value <$> vs) = zsum vs.
Proof.
  unfold total. induction vs as [|v vs IH]; [done|].
  rewrite !fmap_cons. cbn [zsum foldr value]. f_equal. exact IH.
Qed.

Lemma pending_values (vs : list Z) : pending (Value <$> vs) = 0%nat.
Proof.
  unfold pending. induction vs as [|v vs IH]; [done|].
  rewrite !fmap_cons. cbn [foldr additions]. exact IH.
Qed.

End ToyFacts.

(** A graph with a pending addition computes to the value of the
    graph. *)
Lemma compute_pending (r : Toy.delayed) :
  (0 < Toy.depth r)%nat → Toy.compute r = Some (Toy.value r).
Proof. destruct r; simpl; [lia|done]. Qed.

(** X11. On a list of [2 ^ k] ints the toy cell ends (with fuel for [k]
    rounds of the [while] loop) with [result] set. For [k ≥ 1] it is
    one task graph: computing it gives the sum of the list, its longest
    chain has [k] additions and it holds [2 ^ k - 1] additions in all.
    For [k = 0] it is the one int of the list, which has no
    [compute]. *)
Theorem toy_reduction_of_power_of_two (k fuel : nat) (a : list Z) :
  length a = (2 ^ k)%nat → (k ≤ fuel)%nat →
  ∃ r, Toy.result fuel a = Toy.Done r ∧
       Toy.depth r = k ∧
       Toy.additions r = (2 ^ k - 1)%nat ∧
       ((1 ≤ k)%nat → Toy.compute r = Some (zsum a)) ∧
       (k = 0%nat → a = [zsum a] ∧ r = Toy.Value (zsum a) ∧
                    Toy.compute r = None).
Proof.
  intros Hlen Hfuel.
  destruct (reduce_loop_pow2 k fuel (Toy.Value <$> a) 0)
    as (r & Hr & Hc & Hd & Ha).
  - by rewrite length_fmap.
  - done.
  - apply Forall_fmap, Forall_true. done.
  - exists r. unfold Toy.result. rewrite Hr. split; [done|].
    rewrite total_values in Hc. rewrite pending_values in Ha.
    do 2 (split; [done|]). split.
    + intros Hk. rewrite compute_pending by lia. by rewrite Hc.
    + intros ->. destruct a as [|v [|??]]; try done.
      unfold zsum. simpl. rewrite Z.add_0_r.
      destruct fuel; simpl in Hr; injection Hr as <-; done.
Qed.

Lemma toy_reduction_of_power_of_two_witness :
  ∃ r, Toy.result 4 [1; 2; 3; 4; 5; 6; 7; 8; 9; 10; 11; 12; 13; 14; 15; 16]
       = Toy.Done r ∧
       Toy.depth r = 4%nat ∧
       Toy.additions r = (2 ^ 4 - 1)%nat ∧
       ((1 ≤ 4)%nat →
        Toy.compute r
        = Some (zsum [1; 2; 3; 4; 5; 6; 7; 8; 9; 10; 11; 12; 13; 14; 15; 16])) ∧
       (4%nat = 0%nat →
        [1; 2; 3; 4; 5; 6; 7; 8; 9; 10; 11; 12; 13; 14; 15; 16]
        = [zsum [1; 2; 3; 4; 5; 6; 7; 8; 9; 10; 11; 12; 13; 14; 15; 16]] ∧
        r = Toy.Value
              (zsum [1; 2; 3; 4; 5; 6; 7; 8; 9; 10; 11; 12; 13; 14; 15; 16]) ∧
        Toy.compute r = None).
Proof.
  apply (toy_reduction_of_power_of_two 4 4); [reflexivity|lia].
Defined.

(** X12. On a list whose length is not a power of two (the empty list
    included) the toy cell raises an [IndexError], at the latest when a
    round of the loop meets an odd number of entries; the fuel of the
    model is not what stops it. *)
Theorem toy_reduction_raises_otherwise (fuel : nat) (a : list Z) :
  (∀ k, length a ≠ 2 ^ k)%nat → (length a ≤ fuel)%nat →
  Toy.result fuel a = Toy.IndexError.
Proof.
  intros Hnp Hfuel. unfold Toy.result.
  destruct (reduce_loop_not_pow2 fuel (Toy.Value <$> a)) as [->|[-> _]].
  - by rewrite length_fmap.
  - intros k. rewrite length_fmap. apply Hnp.
  - done.
  - done.
Qed.

Lemma toy_reduction_raises_otherwise_witness :
  Toy.result 6 [1; 2; 3; 4; 5; 6] = Toy.IndexError.
Proof.
  apply (toy_reduction_raises_otherwise 6 [1; 2; 3; 4; 5; 6]); [|simpl; lia].
  intros k Hk. simpl in Hk.
  destruct k as [|[|[|k]]]; simpl in Hk; lia.
Defined.

(** * The patch list and the crop of the inference notebook *)

Lemma range_from (start extent step : Z) :
  0 < step →
  Py.range start (start + extent) step
  = Some ((λ k, start + k * step) <$> seqZ 0 (Py.range_len 0 extent step)).
Proof.
  intros Hstep. unfold Py.range. rewrite decide_False by lia. do 3 f_equal.
  unfold Py.range_len. repeat case_decide; try lia.
  by replace (start + extent - start - 1) with (extent - 0 - 1) by lia.
Qed.

Lemma elem_of_bind2 {A B C : Type} (xs : list A) (ys : list B)
    (f : A → B → C) (e : C) :
  e ∈ (i ← xs; j ← ys; [f i j]) ↔ ∃ i j, i ∈ xs ∧ j ∈ ys ∧ e = f i j.
Proof.
  rewrite list_elem_of_bind. split.
  - intros (i & (j & ->%list_elem_of_singleton & Hj)%list_elem_of_bind & Hi).
    by exists i, j.
  - intros (i & j & Hi & Hj & ->). exists i. split; [|done].
    apply list_elem_of_bind. exists j. split; [|done].
    by apply list_elem_of_singleton.
Qed.

Lemma length_bind2 {A B C : Type} (xs : list A) (ys : list B)
    (f : A → B → C) :
  length (i ← xs; j ← ys; [f i j]) = (length xs * length ys)%nat.
Proof.
  induction xs as [|x xs IH]; [done|].
  rewrite bind_cons, length_app, IH. simpl. f_equal.
  clear. induction ys as [|y ys IHy]; [done|].
  rewrite bind_cons. simpl. by rewrite IHy.
Qed.

(** X13. For every corner [(x, y)] the patch list of the inference
    notebook holds 169 entries, one for each of 13 by 13 start positions
    at stride 164, each of size 256 by 256. Because the stride is smaller
    than the patch, every pixel of the 2000 by 2000 region is inside
    some patch; the patches reach 224 pixels past the region. *)
Theorem data_list_covers_region (x y : Z) :
  ∃ l, Patches.data_list x y = Some l ∧
    length l = 169%nat ∧
    (∀ e, e ∈ l ↔
          ∃ a b, 0 ≤ a < 13 ∧ 0 ≤ b < 13 ∧
            e = {| Patches.image := "data/tcga1.svs";
                   Patches.location := [x + a * 164; y + b * 164];
                   Patches.size := [256; 256] |}) ∧
    (∀ px py, x ≤ px < x + 2000 → y ≤ py < y + 2000 →
       ∃ e i j, e ∈ l ∧ Patches.location e = [i; j] ∧
                patch_covers i px ∧ patch_covers j py) ∧
    (∀ e i j px py, e ∈ l → Patches.location e = [i; j] →
       patch_covers i px → patch_covers j py →
       x ≤ px < x + 2224 ∧ y ≤ py < y + 2224).
Proof.
  assert (∀ l e,
    l = (i ← (λ k, x + k * 164) <$> seqZ 0 13;
         j ← (λ k, y + k * 164) <$> seqZ 0 13;
         [{| Patches.image := "data/tcga1.svs"; Patches.location := [i; j];
             Patches.size := [256; 256] |}]) →
    e ∈ l ↔
    ∃ a b, 0 ≤ a < 13 ∧ 0 ≤ b < 13 ∧
      e = {| Patches.image := "data/tcga1.svs";
             Patches.location := [x + a * 164; y + b * 164];
             Patches.size := [256; 256] |}) as Helem.
  { intros l e ->.
    rewrite (elem_of_bind2 _ _
               (λ i j, {| Patches.image := "data/tcga1.svs";
                          Patches.location := [i; j];
                          Patches.size := [256; 256] |})).
    split.
    - intros (i & j & (a & -> & Ha%elem_of_seqZ)%list_elem_of_fmap
                & (b & -> & Hb%elem_of_seqZ)%list_elem_of_fmap & ->).
      exists a, b. repeat split; lia.
    - intros (a & b & Ha & Hb & ->). exists (x + a * 164), (y + b * 164).
      repeat split.
      + apply list_elem_of_fmap. exists a. split; [done|].
        apply elem_of_seqZ. lia.
      + apply list_elem_of_fmap. exists b. split; [done|].
        apply elem_of_seqZ. lia. }
  eexists. split.
  { unfold Patches.data_list. rewrite !range_from by lia.
    change (Py.range_len 0 2000 164) with 13. reflexivity. }
  split; [|split; [|split]].
  - rewrite (length_bind2 _ _
               (λ i j, {| Patches.image := "data/tcga1.svs";
                          Patches.location := [i; j];
                          Patches.size := [256; 256] |})).
    by rewrite !length_fmap, !length_seqZ.
  - intros e. by apply Helem.
  - intros px py Hpx Hpy.
    pose proof (Z.div_mod (px - x) 164 ltac:(lia)) as Hdx.
    pose proof (Z.mod_pos_bound (px - x) 164 ltac:(lia)) as Hmx.
    pose proof (Z.div_mod (py - y) 164 ltac:(lia)) as Hdy.
    pose proof (Z.mod_pos_bound (py - y) 164 ltac:(lia)) as Hmy.
    exists {| Patches.image := "data/tcga1.svs";
              Patches.location := [x + (px - x) / 164 * 164;
                                   y + (py - y) / 164 * 164];
              Patches.size := [256; 256] |},
      (x + (px - x) / 164 * 164), (y + (py - y) / 164 * 164).
    split; [|split; [reflexivity|]].
    + apply (Helem _ _ eq_refl).
      exists ((px - x) / 164), ((py - y) / 164). repeat split; try lia.
    + unfold patch_covers. lia.
  - intros e i j px py (a & b & Ha & Hb & ->)%(Helem _ _ eq_refl).
    simpl. intros [= <- <-]. unfold patch_covers. lia.
Qed.

(** A slice that drops [m > 0] elements at both ends. *)
Lemma slice_margin {A : Type} (l : list A) (m : nat) :
  (0 < m)%nat →
  Py.slice l (Z.of_nat m) (- Z.of_nat m)
  = take (length l - 2 * m) (drop m l).
Proof.
  intros Hm. unfold Py.slice, Py.slice_index.
  repeat case_decide; try lia.
  destruct (decide (m ≤ length l)%nat) as [Hle|Hgt].
  - rewrite Z.min_l by lia. rewrite Nat2Z.id. f_equal. lia.
  - rewrite Z.min_r by lia. rewrite Nat2Z.id.
    rewrite !drop_ge by lia. by rewrite !take_nil.
Qed.

Lemma slice_46 {A : Type} (l : list A) :
  Py.slice l 46 (-46) = take (length l - 92) (drop 46 l).
Proof. exact (slice_margin l 46 ltac:(lia)). Qed.

(** X14. The crop [img[46:-46,46:-46]] of an image with rows of one
    length drops 46 rows and 46 columns on every side: it has 92 rows
    and 92 columns fewer (none when the image has at most 92), and its
    cell [(r, c)] is the cell [(r + 46, c + 46)] of the image. A patch
    of 256 by 256 is cropped to 164 by 164, the stride of the patch
    list. *)
Theorem crop_keeps_centre {A : Type} (img : list (list A)) (ncols : nat) :
  Forall (λ row, length row = ncols) img →
  length (Patches.crop img) = (length img - 92)%nat ∧
  Forall (λ row, length row = (ncols - 92)%nat) (Patches.crop img) ∧
  (∀ r c : nat, (r < length img - 92)%nat → (c < ncols - 92)%nat →
     (row ← Patches.crop img !! r; row !! c)
     = (row ← img !! (r + 46)%nat; row !! (c + 46)%nat)) ∧
  (length img = 256%nat → ncols = 256%nat →
   length (Patches.crop img) = 164%nat ∧
   Forall (λ row, length row = 164%nat) (Patches.crop img)).
Proof.
  intros Hrows.
  assert (Patches.crop img
          = (λ row : list A, take (length row - 92) (drop 46 row))
              <$> take (length img - 92) (drop 46 img)) as Hcrop.
  { unfold Patches.crop.
    rewrite (slice_46 img). apply list_fmap_ext.
    intros i row _. by rewrite (slice_46 row). }
  assert (length (Patches.crop img) = (length img - 92)%nat) as Hlen.
  { rewrite Hcrop, length_fmap, length_take, length_drop. lia. }
  assert (Forall (λ row, length row = (ncols - 92)%nat) (Patches.crop img))
    as Hcols.
  { rewrite Hcrop. apply Forall_fmap, Forall_take, Forall_drop.
    eapply Forall_impl; [exact Hrows|]. intros row Hrow. simpl in *.
    rewrite length_take, length_drop. lia. }
  split; [done|]. split; [done|]. split.
  - intros r c Hr Hc. rewrite Hcrop, list_lookup_fmap.
    rewrite lookup_take_lt by lia. rewrite lookup_drop.
    replace (46 + r)%nat with (r + 46)%nat by lia.
    destruct (img !! (r + 46)%nat) as [row|] eqn:Hrow; [|done]. simpl.
    assert (length row = ncols) as Hl.
    { rewrite Forall_forall in Hrows. apply Hrows.
      by eapply list_elem_of_lookup_2. }
    rewrite lookup_take_lt by lia. rewrite lookup_drop. f_equal. lia.
  - intros HR HC. rewrite Hlen, HR. split; [done|].
    by rewrite HC in Hcols.
Qed.

Lemma crop_keeps_centre_witness :
  length (Patches.crop (replicate 94 (replicate 94 0)))
  = (length (replicate 94 (replicate 94 0)) - 92)%nat.
Proof.
  apply (crop_keeps_centre (replicate 94 (replicate 94 0)) 94).
  apply Forall_replicate. reflexivity.
Defined.

(** * Failure of a task in the aggregator *)

Lemma length_concat_results (futures : list Aggregator.future) :
  length (concat (results futures))
  = foldr Nat.add 0%nat (length <$> results futures).
Proof.
  induction (results futures) as [|r rs IH]; [done|].
  rewrite fmap_cons. cbn [concat foldr]. by rewrite length_app, IH.
Qed.

(** X17. [compile_results] raises exactly when one of the tasks raised,
    in whatever order the tasks complete; when none did, the list it
    returns has as many entries as the tasks returned together. *)
Theorem compile_results_raises_iff
    (futures : list Aggregator.future) (picks : list nat) :
  (Aggregator.compile_results futures picks = None ↔ None ∈ futures) ∧
  (∀ patches, Aggregator.compile_results futures picks = Some patches →
     length patches = foldr Nat.add 0%nat (length <$> results futures)).
Proof.
  destruct (compile_results_spec futures picks)
    as [[Hin Hnone]|[Hnin (patches & Hsome & Hperm)]].
  - split; [done|]. intros patches Hp. congruence.
  - split.
    + split; [congruence|done].
    + intros patches' Hp. rewrite Hsome in Hp. injection Hp as <-.
      by rewrite Hperm, length_concat_results.
Qed.

(** Three tasks of which the second raised, in two completion orders. *)
Example compile_results_failed_task :
  Aggregator.compile_results [Some [(0, 0)]; None; Some [(0, 164)]] [] = None ∧
  Aggregator.compile_results [Some [(0, 0)]; None; Some [(0, 164)]] [2%nat]
  = None.
Proof. split; reflexivity. Qed.
